(** * A shallow embedding of the auto-matchmaking engine of picklepro-stats

    Source: [src/services/autoMatchmaker.ts] (with the input types of
    [src/types.ts]).

    Numbers of the TypeScript code are modelled as real numbers [R]: the
    arithmetic is the exact arithmetic the floating-point code approximates.
    Comparisons become the decidable tests [Rlt_dec], [Rle_dec] and
    [Req_dec]; [Math.abs], [Math.max], [Math.min], [Math.log] and
    [Math.pow(10, _)] become [Rabs], [Rmax], [Rmin], [ln] and [Rpower 10].
    A JavaScript [Map<string, V>] is an association list with the insertion
    order and the in-place replacement of [Map.prototype.set]; a [Set<string>]
    is a list of strings; [Array.prototype.sort] with a consistent comparator
    is a stable insertion sort.  The date string of a match is represented by
    the timestamp [new Date(m.date).getTime()] it parses to. *)

From Stdlib Require Import Reals Psatz List String ZArith Bool Permutation Sorted.
Import ListNotations.

Open Scope R_scope.
Open Scope string_scope.

(** ** Input types ([src/types.ts]) *)

(** The fields of [Player] the engine reads. An optional numeric field is an
    [option R]. *)
Record Player := mkPlayer {
  p_id : string;
  p_initialPoints : option R;
  p_tournamentRating : option R
}.

(** The fields of [Match] the engine reads; [m_date] is
    [new Date(m.date).getTime()] and [m_winner] is [1] or [2]. *)
Record Match := mkMatch {
  m_date : Z;
  m_team1 : list string;
  m_team2 : list string;
  m_winner : nat
}.

(** ** Derived types *)

Record PlayerForm := mkPlayerForm {
  pf_id : string;
  pf_baseRating : R;
  pf_form : R;
  pf_effectiveRating : R
}.

Record GeneratedPair := mkPair {
  player1 : PlayerForm;
  player2 : PlayerForm;
  strength : R;
  structure : R;
  cost : R
}.

(** The [reason] of a handicap is the template literal
    [`<prefix> ${diff.toFixed(2)}`]: we keep its prefix and the number it
    formats. *)
Record Handicap := mkHandicap {
  h_team : nat;
  h_points : nat;
  h_reason_prefix : string;
  h_reason_diff : R
}.

Record Analysis := mkAnalysis {
  team2Synergy : R;
  team2Form : R;
  qualityScore : R
}.

Record GeneratedMatch := mkGeneratedMatch {
  team1 : GeneratedPair;
  team2 : GeneratedPair;
  matchCost : R;
  handicap : option Handicap;
  analysis : Analysis
}.

Record AutoMatchResult := mkAutoMatchResult {
  res_players : list PlayerForm;
  res_pairs : list GeneratedPair;
  res_matches : list GeneratedMatch
}.

(** ** Configuration constants *)

Definition D_FACTOR : R := 12 / 10.
Definition K_FACTOR : R := 18 / 100.
Definition SUPPORT_CUTOFF : R := 26 / 10.
Definition TARGET_DIFF : R := 14 / 10.

(** ** JavaScript helpers *)

Definition Rltb (x y : R) : bool := if Rlt_dec x y then true else false.
Definition Rleb (x y : R) : bool := if Rle_dec x y then true else false.
Definition Reqb (x y : R) : bool := if Req_EM_T x y then true else false.

(** [a || b] on a possibly missing number: [undefined] and [0] are falsy. *)
Definition js_or (a : option R) (b : R) : R :=
  match a with
  | Some x => if Reqb x 0 then b else x
  | None => b
  end.

(** [Array.prototype.sort] with comparator [cmp]: stable, [x] is placed
    before [y] exactly when [cmp x y < 0]; [lt x y] stands for that test. *)
Fixpoint insert_by {A} (lt : A -> A -> bool) (x : A) (l : list A) : list A :=
  match l with
  | [] => [x]
  | y :: ys => if lt x y then x :: y :: ys else y :: insert_by lt x ys
  end.

Definition sort_by {A} (lt : A -> A -> bool) (l : list A) : list A :=
  fold_left (fun acc x => insert_by lt x acc) l [].

(** Default [sort()] of an array of strings, then [join('-')]. *)
Definition sorted_key (ids : list string) : string :=
  String.concat "-" (sort_by String.ltb ids).

(** [Map<string, V>]: [get], and [set] which replaces an existing key in
    place and appends a new one. *)
Fixpoint map_get {V} (k : string) (m : list (string * V)) : option V :=
  match m with
  | [] => None
  | (k', v) :: t => if String.eqb k k' then Some v else map_get k t
  end.

Fixpoint map_set {V} (k : string) (v : V) (m : list (string * V))
  : list (string * V) :=
  match m with
  | [] => [(k, v)]
  | (k', v') :: t =>
      if String.eqb k k' then (k', v) :: t else (k', v') :: map_set k v t
  end.

(** [Set<string>.has]. *)
Definition set_has (k : string) (s : list string) : bool :=
  existsb (String.eqb k) s.

(** [Math.floor] through the archimedean [up] of the Standard Library:
    [x < up x <= x + 1]. *)
Definition floorZ (x : R) : Z := (up x - 1)%Z.

(** [Number(x.toFixed(2))]: [toFixed] rounds [|x| * 100] half up and puts
    the sign of [x] back. *)
Definition round2 (x : R) : R :=
  if Rltb x 0 then - IZR (floorZ (- x * 100 + / 2)) / 100
  else IZR (floorZ (x * 100 + / 2)) / 100.

(** ** Step 1: learn player form ([calculatePlayerForms]) *)

(** [const rawRating = (p.tournamentRating || p.initialPoints || 0)] *)
Definition rawRating (p : Player) : R :=
  js_or (p_tournamentRating p) (js_or (p_initialPoints p) 0).

(** [const baseRating = rawRating > 20 ? 3.0 : (rawRating || 3.0)] *)
Definition baseRating_of (p : Player) : R :=
  let raw := rawRating p in
  if Rltb 20 raw then 3 else js_or (Some raw) 3.

Definition init_form (p : Player) : PlayerForm :=
  mkPlayerForm (p_id p) (baseRating_of p) 0 (baseRating_of p).

(** [players.forEach(p => playerStats.set(String(p.id), {...}))] *)
Definition init_stats (players : list Player) : list (string * PlayerForm) :=
  fold_left (fun st p => map_set (p_id p) (init_form p) st) players [].

(** [t.form += share] / [t.form -= share] on the object stored under key
    [k]: the map holds one object per key, so the update is seen by every
    later read through the same key. *)
Fixpoint upd_form (k : string) (f : R -> R) (st : list (string * PlayerForm))
  : list (string * PlayerForm) :=
  match st with
  | [] => []
  | (k', pf) :: t =>
      if String.eqb k k'
      then (k', mkPlayerForm (pf_id pf) (pf_baseRating pf) (f (pf_form pf))
                             (pf_effectiveRating pf)) :: t
      else (k', pf) :: upd_form k f t
  end.

Definition eff_now (pf : PlayerForm) : R := pf_baseRating pf + pf_form pf.

(** [expectedT1 = 1 / (1 + Math.pow(10, (effT2 - effT1) / D_FACTOR))] *)
Definition expectedT1 (effT1 effT2 : R) : R :=
  1 / (1 + Rpower 10 ((effT2 - effT1) / D_FACTOR)).

(** [const actualS = m.winner === 1 ? 1 : 0] *)
Definition actualS (m : Match) : R := if Nat.eqb (m_winner m) 1 then 1 else 0.

(** The share [delta / 2] given the four players' current states. *)
Definition form_share (m : Match) (f1 f2 f3 f4 : PlayerForm) : R :=
  let effT1 := eff_now f1 + eff_now f2 in
  let effT2 := eff_now f3 + eff_now f4 in
  let delta := K_FACTOR * (actualS m - expectedT1 effT1 effT2) in
  delta / 2.

(** The body of [sortedMatches.forEach(m => ...)], lines 68-96. *)
Definition form_step (st : list (string * PlayerForm)) (m : Match)
  : list (string * PlayerForm) :=
  match m_team1 m, m_team2 m with
  | [a; b], [c; d] =>
      match map_get a st, map_get b st, map_get c st, map_get d st with
      | Some f1, Some f2, Some f3, Some f4 =>
          let share := form_share m f1 f2 f3 f4 in
          let st1 := upd_form a (fun x => x + share) st in
          let st2 := upd_form b (fun x => x + share) st1 in
          let st3 := upd_form c (fun x => x - share) st2 in
          upd_form d (fun x => x - share) st3
      | _, _, _, _ => st
      end
  | _, _ => st
  end.

(** [new Date(a.date).getTime() - new Date(b.date).getTime() < 0] *)
Definition date_asc (a b : Match) : bool := Z.ltb (m_date a) (m_date b).

Definition replay (st : list (string * PlayerForm)) (ms : list Match)
  : list (string * PlayerForm) :=
  fold_left form_step ms st.

(** [p.effectiveRating = Number((p.baseRating + p.form).toFixed(2))] *)
Definition finalize (pf : PlayerForm) : PlayerForm :=
  mkPlayerForm (pf_id pf) (pf_baseRating pf) (pf_form pf)
               (round2 (pf_baseRating pf + pf_form pf)).

Definition calculatePlayerForms (players : list Player) (matches : list Match)
  : list (string * PlayerForm) :=
  let st := replay (init_stats players) (sort_by date_asc matches) in
  map (fun '(k, pf) => (k, finalize pf)) st.

(** ** Step 2: learn synergy ([calculateSynergyMatrix]) *)

Record PairStat := mkPairStat { games : nat; wins : nat }.

(** [getPairKey = (id1, id2) => [String(id1), String(id2)].sort().join('-')] *)
Definition getPairKey (id1 id2 : string) : string := sorted_key [id1; id2].

(** [if (!pairStats.has(k)) pairStats.set(k, {games: 0, wins: 0});
     const s = pairStats.get(k)!; s.games++; if (won) s.wins++;] *)
Definition count_pair (k : string) (won : bool) (st : list (string * PairStat))
  : list (string * PairStat) :=
  let st' := match map_get k st with
             | None => map_set k (mkPairStat 0 0) st
             | Some _ => st
             end in
  match map_get k st' with
  | Some s =>
      map_set k (mkPairStat (S (games s)) (if won then S (wins s) else wins s)) st'
  | None => st'
  end.

(** The body of [matches.forEach(m => ...)], lines 111-131. *)
Definition synergy_step (st : list (string * PairStat)) (m : Match)
  : list (string * PairStat) :=
  let st1 :=
    match m_team1 m with
    | [a; b] => count_pair (getPairKey a b) (Nat.eqb (m_winner m) 1) st
    | _ => st
    end in
  match m_team2 m with
  | [c; d] => count_pair (getPairKey c d) (Nat.eqb (m_winner m) 2) st1
  | _ => st1
  end.

Definition pair_stats (matches : list Match) : list (string * PairStat) :=
  fold_left synergy_step matches [].

(** Lines 136-140: smoothed win rate, clamp, shrunk log-odds. *)
Definition synergy_of (s : PairStat) : R :=
  let p := (INR (wins s) + 2) / (INR (games s) + 4) in
  let safeP := Rmax (1 / 100) (Rmin (99 / 100) p) in
  ln (safeP / (1 - safeP)) * (INR (games s) / (INR (games s) + 6)).

Definition calculateSynergyMatrix (matches : list Match) : list (string * R) :=
  fold_left (fun acc '(k, s) => map_set k (synergy_of s) acc)
            (pair_stats matches) [].

(** ** Step 3: pairing cost ([getPairingCost]) *)

(** [synergyMatrix.get(pairKey) || 0] *)
Definition synergy_lookup (syn : list (string * R)) (k : string) : R :=
  js_or (map_get k syn) 0.

Definition getPairingCost (p1 p2 : PlayerForm) (syn : list (string * R))
  (recentPairs : list string) : R :=
  let e1 := pf_effectiveRating p1 in
  let e2 := pf_effectiveRating p2 in
  let diff := Rabs (e1 - e2) in
  let c0 := 1 * (diff - TARGET_DIFF) ^ 2 in
  let c1 := if Rltb diff (6 / 10) then c0 + 15 / 10 else c0 in
  let c2 := if Rltb 2 diff then c1 + 3 else c1 in
  let c3 := if Rltb e1 SUPPORT_CUTOFF && Rltb e2 SUPPORT_CUTOFF
            then c2 + 10 else c2 in
  let pairKey := sorted_key [pf_id p1; pf_id p2] in
  let s := synergy_lookup syn pairKey in
  let c4 := if Rltb (35 / 100) (Rabs s) then c3 + Rabs s * 2 else c3 in
  if set_has pairKey recentPairs then c4 + 15 else c4.

(** ** Step 4: pairing ([generateOptimalPairs]) *)

(** The pair object literal of lines 220-226 (and 253-266). *)
Definition make_pair (a b : PlayerForm) (c : R) : GeneratedPair :=
  mkPair a b (pf_effectiveRating a + pf_effectiveRating b)
         (Rabs (pf_effectiveRating a - pf_effectiveRating b)) c.

(** The inner loop of lines 206-215: the first unused partner of least cost;
    [None] is [minCost = Infinity], below which every finite cost lies. *)
Definition best_partner (p1 : PlayerForm) (rest : list PlayerForm)
  (used : list string) (syn : list (string * R)) (recentPairs : list string)
  : option (PlayerForm * R) :=
  fold_left
    (fun acc p2 =>
       if set_has (pf_id p2) used then acc
       else
         let c := getPairingCost p1 p2 syn recentPairs in
         match acc with
         | None => Some (p2, c)
         | Some (_, minCost) => if Rltb c minCost then Some (p2, c) else acc
         end)
    rest None.

(** The outer loop of lines 198-228 over [sortedPool]. *)
Fixpoint greedy_loop (l : list PlayerForm) (used : list string)
  (syn : list (string * R)) (recentPairs : list string) : list GeneratedPair :=
  match l with
  | [] => []
  | p1 :: rest =>
      if set_has (pf_id p1) used then greedy_loop rest used syn recentPairs
      else
        match best_partner p1 rest used syn recentPairs with
        | Some (p2, minCost) =>
            make_pair p1 p2 minCost
              :: greedy_loop rest (pf_id p2 :: pf_id p1 :: used) syn recentPairs
        | None => greedy_loop rest used syn recentPairs
        end
  end.

(** [[...pool].sort((a, b) => a.effectiveRating - b.effectiveRating)] *)
Definition rating_asc (a b : PlayerForm) : bool :=
  Rltb (pf_effectiveRating a - pf_effectiveRating b) 0.

Definition greedy_seed (pool : list PlayerForm) (syn : list (string * R))
  (recentPairs : list string) : list GeneratedPair :=
  greedy_loop (sort_by rating_asc pool) [] syn recentPairs.

(** [pairs.reduce((sum, p) => sum + p.cost, 0)] *)
Definition total_cost (pairs : list GeneratedPair) : R :=
  fold_left (fun s p => s + cost p) pairs 0.

(** [pairs[i] = v] for an index inside the array. *)
Fixpoint list_set {A} (l : list A) (i : nat) (v : A) : list A :=
  match l, i with
  | [], _ => []
  | _ :: t, O => v :: t
  | x :: t, S i' => x :: list_set t i' v
  end.

(** The random choice of lines 238-240.  [Math.floor(Math.random() * n)] is
    an index below [n]; the rejection loop, when it returns, has drawn an
    index [idx2 <> idx1].  A raw draw [(a, b)] names such an outcome:
    [idx1 = a mod n] and [idx2] is [idx1] shifted by [1 + b mod (n - 1)]
    around the array, which reaches every index other than [idx1]. *)
Definition pick_indices (n : nat) (draw : nat * nat) : nat * nat :=
  let idx1 := Nat.modulo (fst draw) n in
  let idx2 := Nat.modulo (idx1 + 1 + Nat.modulo (snd draw) (n - 1)) n in
  (idx1, idx2).

Definition dummy_form : PlayerForm := mkPlayerForm "" 0 0 0.
Definition dummy_pair : GeneratedPair :=
  mkPair dummy_form dummy_form 0 0 0.

(** One iteration of the local search, lines 242-271, on the pairs and
    [currentTotalCost]. *)
Definition swap_step (syn : list (string * R)) (recentPairs : list string)
  (idx : nat * nat) (pairs : list GeneratedPair) (currentTotalCost : R)
  : list GeneratedPair * R :=
  let '(idx1, idx2) := idx in
  let pairA := nth idx1 pairs dummy_pair in
  let pairB := nth idx2 pairs dummy_pair in
  let costSwap1 := getPairingCost (player1 pairA) (player2 pairB) syn recentPairs in
  let costSwap2 := getPairingCost (player1 pairB) (player2 pairA) syn recentPairs in
  let newTotalCost :=
    currentTotalCost - cost pairA - cost pairB + costSwap1 + costSwap2 in
  if Rltb newTotalCost currentTotalCost then
    let newPairA := make_pair (player1 pairA) (player2 pairB) costSwap1 in
    let newPairB := make_pair (player1 pairB) (player2 pairA) costSwap2 in
    (list_set (list_set pairs idx1 newPairA) idx2 newPairB, newTotalCost)
  else (pairs, currentTotalCost).

(** The loop [for (let iter = 0; iter < 200; iter++)]: [k] is [iter] and
    [n] the iterations left; [draws iter] is the random draw of iteration
    [iter]. *)
Fixpoint local_search (draws : nat -> nat * nat) (syn : list (string * R))
  (recentPairs : list string) (k n : nat) (pairs : list GeneratedPair)
  (currentTotalCost : R) : list GeneratedPair :=
  match n with
  | O => pairs
  | S n' =>
      if Nat.ltb (List.length pairs) 2 then pairs
      else
        let '(pairs', cur') :=
          swap_step syn recentPairs (pick_indices (List.length pairs) (draws k))
                    pairs currentTotalCost in
        local_search draws syn recentPairs (S k) n' pairs' cur'
  end.

Definition generateOptimalPairs (draws : nat -> nat * nat)
  (pool : list PlayerForm) (syn : list (string * R))
  (recentPairs : list string) : list GeneratedPair :=
  let pairs := greedy_seed pool syn recentPairs in
  local_search draws syn recentPairs 0 200 pairs (total_cost pairs).

(** ** Step 5 and 6: matchmaking and handicap ([generateMatchups]) *)

(** The step function written out identically at lines 326-329, 448-451
    and 559-562. *)
Definition step_points (diff : R) : nat :=
  if Rltb (3 / 10) diff && Rleb diff (6 / 10) then 1%nat
  else if Rltb (6 / 10) diff && Rleb diff (9 / 10) then 2%nat
  else if Rltb (9 / 10) diff && Rleb diff (12 / 10) then 3%nat
  else if Rltb (12 / 10) diff then 4%nat
  else 0%nat.

(** The handicap block of [generateMatchups] (lines 322-345), written out
    the same way in [findTopMatchupsForTeam] (lines 444-466) with [t1] the
    fixed team and [t2] the candidate. *)
Definition pair_handicap (prefix : string) (t1 t2 : GeneratedPair)
  : option Handicap :=
  let diff := Rabs (strength t1 - strength t2) in
  let points := step_points diff in
  let weakerTeam := if Rltb (strength t1) (strength t2) then 1%nat else 2%nat in
  let weakPair := if Nat.eqb weakerTeam 1 then t1 else t2 in
  let points :=
    if Nat.ltb 0 points
       && (Rltb (pf_effectiveRating (player1 weakPair)) SUPPORT_CUTOFF
           || Rltb (pf_effectiveRating (player2 weakPair)) SUPPORT_CUTOFF)
    then S points else points in
  if Nat.ltb 0 points then Some (mkHandicap weakerTeam points prefix diff)
  else None.

(** The reason prefixes, without their Vietnamese diacritics. *)
Definition reason_scheduler : string := "Chenh lech suc manh".
Definition reason_fixed_team : string := "Chenh lech".
Definition reason_predict : string := "Chenh lech trinh do".

(** The opponent cost of lines 299-309. *)
Definition opponent_cost (t1 t2 : GeneratedPair) (recentMatches : list string)
  : R :=
  let c := 1 * (strength t1 - strength t2) ^ 2 in
  let c := c + 7 / 10 * (structure t1 - structure t2) ^ 2 in
  let allIds := sorted_key [pf_id (player1 t1); pf_id (player2 t1);
                            pf_id (player1 t2); pf_id (player2 t2)] in
  if set_has allIds recentMatches then c + 50 else c.

(** The scan of lines 294-315: first index of least cost, [None] for
    [bestOpponentIdx = -1]. *)
Fixpoint best_opponent (t1 : GeneratedPair) (l : list GeneratedPair)
  (recentMatches : list string) (i : nat) (acc : option (nat * R))
  : option (nat * R) :=
  match l with
  | [] => acc
  | t2 :: l' =>
      let c := opponent_cost t1 t2 recentMatches in
      let acc' := match acc with
                  | None => Some (i, c)
                  | Some (_, minMatchCost) =>
                      if Rltb c minMatchCost then Some (i, c) else acc
                  end in
      best_opponent t1 l' recentMatches (S i) acc'
  end.

(** [pool.splice(i, 1)] *)
Fixpoint remove_nth {A} (i : nat) (l : list A) : list A :=
  match l, i with
  | [], _ => []
  | _ :: t, O => t
  | x :: t, S i' => x :: remove_nth i' t
  end.

(** The [while (pool.length >= 2)] loop of lines 286-359; each round removes
    at least one team, so [fuel = pool.length] rounds are enough. *)
Fixpoint matchups_loop (fuel : nat) (pool : list GeneratedPair)
  (recentMatches : list string) : list GeneratedMatch :=
  match fuel with
  | O => []
  | S fuel' =>
      match pool with
      | t1 :: (_ :: _) as rest =>
          match best_opponent t1 rest recentMatches 0 None with
          | Some (bestOpponentIdx, minMatchCost) =>
              let t2 := nth bestOpponentIdx rest dummy_pair in
              let m := mkGeneratedMatch t1 t2 minMatchCost
                         (pair_handicap reason_scheduler t1 t2)
                         (mkAnalysis 0 0 (Rmax 0 (100 - minMatchCost))) in
              m :: matchups_loop fuel' (remove_nth bestOpponentIdx rest)
                                 recentMatches
          | None => matchups_loop fuel' rest recentMatches
          end
      | _ => []
      end
  end.

(** [[...teams].sort((a, b) => b.strength - a.strength)] *)
Definition strength_desc (a b : GeneratedPair) : bool :=
  Rltb (strength b - strength a) 0.

Definition generateMatchups (teams : list GeneratedPair)
  (recentMatches : list string) : list GeneratedMatch :=
  let pool := sort_by strength_desc teams in
  matchups_loop (List.length pool) pool recentMatches.

(** ** Query: [findTopMatchupsForTeam] *)

(** [poolIds.map(id => playerForms.get(String(id))).filter(p => p !== undefined)] *)
Fixpoint resolve_ids (ids : list string) (forms : list (string * PlayerForm))
  : list PlayerForm :=
  match ids with
  | [] => []
  | id :: t =>
      match map_get id forms with
      | Some f => f :: resolve_ids t forms
      | None => resolve_ids t forms
      end
  end.

(** The nested loops [for i; for j > i] of lines 396-412, in that order. *)
Fixpoint index_pairs {A} (l : list A) : list (A * A) :=
  match l with
  | [] => []
  | x :: t => map (fun y => (x, y)) t ++ index_pairs t
  end.

(** [Set.prototype.add] *)
Definition set_add (k : string) (s : list string) : list string :=
  if set_has k s then s else s ++ [k].

(** [new Date(b.date).getTime() - new Date(a.date).getTime() < 0] *)
Definition date_desc (a b : Match) : bool := Z.ltb (m_date b - m_date a) 0.

Definition handicap_points (m : GeneratedMatch) : nat :=
  match handicap m with Some h => h_points h | None => 0%nat end.

(** The comparator of lines 488-500, as the test [cmp(a, b) < 0]. *)
Definition ranking_lt (a b : GeneratedMatch) : bool :=
  let hA := handicap_points a in
  let hB := handicap_points b in
  if Nat.eqb hA 0 && Nat.ltb 0 hB then true
  else if Nat.ltb 0 hA && Nat.eqb hB 0 then false
  else if negb (Nat.eqb hA hB) then Nat.ltb hA hB
  else Rltb (matchCost a - matchCost b) 0.

Definition findTopMatchupsForTeam (fixedTeamIds : string * string)
  (poolIds : list string) (allPlayers : list Player) (allMatches : list Match)
  : list GeneratedMatch :=
  let playerForms := calculatePlayerForms allPlayers allMatches in
  let synergyMatrix := calculateSynergyMatrix allMatches in
  match map_get (fst fixedTeamIds) playerForms,
        map_get (snd fixedTeamIds) playerForms with
  | Some p1, Some p2 =>
      let fixedTeam :=
        mkPair p1 p2 (pf_effectiveRating p1 + pf_effectiveRating p2)
               (Rabs (pf_effectiveRating p1 - pf_effectiveRating p2)) 0 in
      let pool := resolve_ids poolIds playerForms in
      let candidatePairs :=
        map (fun '(opp1, opp2) =>
               make_pair opp1 opp2 (getPairingCost opp1 opp2 synergyMatrix []))
            (index_pairs pool) in
      let sortedMatches := firstn 50 (sort_by date_desc allMatches) in
      let recentMatches :=
        fold_left (fun s m =>
                     if Nat.eqb (List.length (m_team1 m)) 2
                        && Nat.eqb (List.length (m_team2 m)) 2
                     then set_add (sorted_key (m_team1 m ++ m_team2 m)) s
                     else s) sortedMatches [] in
      let rankedMatchups :=
        map (fun candidate =>
               let matchCost := 0 in
               let matchCost :=
                 matchCost + 1 * (strength fixedTeam - strength candidate) ^ 2 in
               let matchCost :=
                 matchCost + 7 / 10 * (structure fixedTeam - structure candidate) ^ 2 in
               let matchCost := matchCost + cost candidate * (5 / 10) in
               let allIds := sorted_key [pf_id p1; pf_id p2;
                                         pf_id (player1 candidate);
                                         pf_id (player2 candidate)] in
               let matchCost :=
                 if set_has allIds recentMatches then matchCost + 50 else matchCost in
               let pairKey := sorted_key [pf_id (player1 candidate);
                                          pf_id (player2 candidate)] in
               let syn := synergy_lookup synergyMatrix pairKey in
               let combinedForm :=
                 pf_form (player1 candidate) + pf_form (player2 candidate) in
               mkGeneratedMatch fixedTeam candidate matchCost
                 (pair_handicap reason_fixed_team fixedTeam candidate)
                 (mkAnalysis syn combinedForm (Rmax 0 (100 - matchCost))))
            candidatePairs in
      firstn 10 (sort_by ranking_lt rankedMatchups)
  | _, _ => []
  end.

(** ** Query: [predictMatchOutcome] *)

(** Team construction of lines 518-534 (and 537-551): [second] is
    [t1p2], where [null] (singles) and [undefined] (unknown id) are both
    [None]. *)
Definition predict_team (first : PlayerForm) (second : option PlayerForm)
  : GeneratedPair :=
  let rating := pf_effectiveRating first
                + match second with Some q => pf_effectiveRating q | None => 0 end in
  let struct := match second with
                | Some q => Rabs (pf_effectiveRating first - pf_effectiveRating q)
                | None => 0
                end in
  mkPair first (match second with Some q => q | None => first end) rating struct 0.

(** [const t1p2 = ids.length > 1 ? playerForms.get(String(ids[1])) : null] *)
Definition second_member (ids : list string) (forms : list (string * PlayerForm))
  : option PlayerForm :=
  match ids with
  | _ :: id2 :: _ => map_get id2 forms
  | _ => None
  end.

Definition predictMatchOutcome (team1Ids team2Ids : list string)
  (allPlayers : list Player) (allMatches : list Match)
  : option GeneratedMatch :=
  match team1Ids, team2Ids with
  | [], _ | _, [] => None
  | id1 :: _, id2 :: _ =>
      let playerForms := calculatePlayerForms allPlayers allMatches in
      match map_get id1 playerForms with
      | None => None
      | Some t1p1 =>
          let team1Pair := predict_team t1p1 (second_member team1Ids playerForms) in
          match map_get id2 playerForms with
          | None => None
          | Some t2p1 =>
              let team2Pair :=
                predict_team t2p1 (second_member team2Ids playerForms) in
              let diff := Rabs (strength team1Pair - strength team2Pair) in
              let points := step_points diff in
              let weakerTeam :=
                if Rltb (strength team1Pair) (strength team2Pair) then 1%nat
                else 2%nat in
              let weakPair := if Nat.eqb weakerTeam 1 then team1Pair else team2Pair in
              (** [hasWeakLink], lines 569-571 *)
              let hasWeakLink (p : GeneratedPair) :=
                Rltb (pf_effectiveRating (player1 p)) SUPPORT_CUTOFF
                || (Nat.ltb 1 (List.length team1Ids)
                    && Rltb (pf_effectiveRating (player2 p)) SUPPORT_CUTOFF) in
              let points :=
                if Nat.ltb 0 points && hasWeakLink weakPair then S points
                else points in
              let h := if Nat.ltb 0 points
                       then Some (mkHandicap weakerTeam points reason_predict diff)
                       else None in
              let quality := Rmax 0 (100 - diff * 50) in
              Some (mkGeneratedMatch team1Pair team2Pair 0 h
                                     (mkAnalysis 0 0 quality))
          end
      end
  end.

(** ** Main entry point: [runAutoMatchmaker] *)

(** A thrown [Error] or a returned value. *)
Inductive Outcome (A : Type) :=
| Throw : string -> Outcome A
| Return : A -> Outcome A.
Arguments Throw {A} _.
Arguments Return {A} _.

Definition odd_count_message : string :=
  "So luong nguoi choi phai la so chan.".

(** [allPlayers.filter(p => selectedPlayerIds.includes(String(p.id)))] *)
Definition selectedPlayers (selectedPlayerIds : list string)
  (allPlayers : list Player) : list Player :=
  filter (fun p => existsb (String.eqb (p_id p)) selectedPlayerIds) allPlayers.

(** [playerForms.get(String(p.id))!]: the assertion holds, every roster
    player has an entry ([calculatePlayerForms_get] below); [dummy_form]
    only fills the branch the assertion rules out. *)
Definition form_of (forms : list (string * PlayerForm)) (p : Player)
  : PlayerForm :=
  match map_get (p_id p) forms with Some f => f | None => dummy_form end.

(** The recency sets of lines 624-634. *)
Definition recent_sets (allMatches : list Match) : list string * list string :=
  let sortedMatches := firstn 20 (sort_by date_desc allMatches) in
  fold_left
    (fun '(recentPairs, recentMatches) m =>
       let recentPairs :=
         if Nat.eqb (List.length (m_team1 m)) 2
         then set_add (sorted_key (m_team1 m)) recentPairs else recentPairs in
       let recentPairs :=
         if Nat.eqb (List.length (m_team2 m)) 2
         then set_add (sorted_key (m_team2 m)) recentPairs else recentPairs in
       let recentMatches :=
         if Nat.eqb (List.length (m_team1 m)) 2 && Nat.eqb (List.length (m_team2 m)) 2
         then set_add (sorted_key (m_team1 m ++ m_team2 m)) recentMatches
         else recentMatches in
       (recentPairs, recentMatches))
    sortedMatches ([], []).

Definition runAutoMatchmaker (draws : nat -> nat * nat)
  (selectedPlayerIds : list string) (allPlayers : list Player)
  (allMatches : list Match) : Outcome AutoMatchResult :=
  let selected := selectedPlayers selectedPlayerIds allPlayers in
  if negb (Nat.eqb (Nat.modulo (List.length selected) 2) 0)
  then Throw odd_count_message
  else
    let playerForms := calculatePlayerForms allPlayers allMatches in
    let synergyMatrix := calculateSynergyMatrix allMatches in
    let pool := map (form_of playerForms) selected in
    let '(recentPairs, recentMatches) := recent_sets allMatches in
    let pairs := generateOptimalPairs draws pool synergyMatrix recentPairs in
    let matchesResult := generateMatchups pairs recentMatches in
    Return (mkAutoMatchResult pool pairs matchesResult).

(** ** Observations used in the statements *)

(** The sum of the [form] fields held by a store. *)
Definition total_form (st : list (string * PlayerForm)) : R :=
  fold_right (fun '(_, pf) s => pf_form pf + s) 0 st.

(** The [games] counter recorded for a pair key, [0] when there is none. *)
Definition recorded_games (matches : list Match) (k : string) : nat :=
  match map_get k (pair_stats matches) with
  | Some s => games s
  | None => 0%nat
  end.

(** The [wins] counter recorded for a pair key, [0] when there is none. *)
Definition recorded_wins (matches : list Match) (k : string) : nat :=
  match map_get k (pair_stats matches) with
  | Some s => wins s
  | None => 0%nat
  end.

(** A pair whose [strength] is the sum and [structure] the absolute
    difference of its two members' effective ratings. *)
Definition pair_sum_ok (p : GeneratedPair) : Prop :=
  strength p = pf_effectiveRating (player1 p) + pf_effectiveRating (player2 p)
  /\ 0 <= structure p.

(** A predictor team of one resolved member: the member fills both slots. *)
Definition pair_single_ok (p : GeneratedPair) : Prop :=
  player2 p = player1 p /\ strength p = pf_effectiveRating (player1 p)
  /\ structure p = 0.

(** The handicap of a proposal follows the step function of its strength
    gap plus at most one support point, lies in [0..5], and is recorded
    exactly when it is positive. *)
Definition handicap_ok (m : GeneratedMatch) : Prop :=
  let diff := Rabs (strength (team1 m) - strength (team2 m)) in
  exists points : nat,
    (points = step_points diff
     \/ (points = S (step_points diff) /\ (0 < step_points diff)%nat))
    /\ (points <= 5)%nat
    /\ (handicap m = None <-> points = 0%nat)
    /\ (forall h, handicap m = Some h -> h_points h = points).

(** Invariant of the counters: each recorded key has at least one game,
    and no key is recorded twice. *)
Definition stats_inv (st : list (string * PairStat)) : Prop :=
  NoDup (map fst st)
  /\ forall k s, map_get k st = Some s -> (1 <= games s)%nat.

(** A form record with its [form] field replaced, as [t.form += share]
    leaves it. *)
Definition with_form (pf : PlayerForm) (x : R) : PlayerForm :=
  mkPlayerForm (pf_id pf) (pf_baseRating pf) x (pf_effectiveRating pf).

(** The players of a list of pairs, two per pair, in order. *)
Definition members (pairs : list GeneratedPair) : list PlayerForm :=
  flat_map (fun p => [player1 p; player2 p]) pairs.

(** The teams of a list of proposals, two per proposal, in order. *)
Definition match_teams (ms : list GeneratedMatch) : list GeneratedPair :=
  flat_map (fun m => [team1 m; team2 m]) ms.

(** The order of the ranking of [findTopMatchupsForTeam]: fewer handicap
    points first, then the lower match cost. *)
Definition ranked_before (a b : GeneratedMatch) : Prop :=
  (handicap_points a < handicap_points b)%nat
  \/ (handicap_points a = handicap_points b /\ matchCost a <= matchCost b).

(** [allPlayers] has a player with id [id]. *)
Definition on_roster (allPlayers : list Player) (id : string) : bool :=
  existsb (String.eqb id) (map p_id allPlayers).

(** The players of [l] whose id is not yet in [used], in order. *)
Definition unused_of (used : list string) (l : list PlayerForm) : list PlayerForm :=
  filter (fun p => negb (set_has (pf_id p) used)) l.

(** The handicap of a proposal goes to the strictly weaker team, and there
    is one exactly when the strength gap exceeds [0.3]. *)
Definition weaker_gets_handicap (m : GeneratedMatch) : Prop :=
  (handicap m = None <-> Rabs (strength (team1 m) - strength (team2 m)) <= 3 / 10)
  /\ forall h, handicap m = Some h ->
       (h_team h = 1%nat /\ strength (team1 m) < strength (team2 m))
       \/ (h_team h = 2%nat /\ strength (team2 m) < strength (team1 m)).

(** * Proofs *)

(** ** Tactics and basic facts *)

(** Case analysis on the string equality tests in the goal. *)
Ltac str_cases :=
  repeat match goal with
         | |- context [String.eqb ?a ?b] =>
             destruct (String.eqb_spec a b); subst; try congruence
         end.

(** Decide the real comparisons in the goal by [lra]. *)
Ltac rdec :=
  repeat match goal with
         | |- context [Rlt_dec ?x ?y] => destruct (Rlt_dec x y); try lra
         | |- context [Rle_dec ?x ?y] => destruct (Rle_dec x y); try lra
         | |- context [Req_EM_T ?x ?y] => destruct (Req_EM_T x y); try lra
         | |- context [Req_dec_T ?x ?y] => destruct (Req_dec_T x y); try lra
         | |- context [Rcase_abs ?x] => destruct (Rcase_abs x); try lra
         | H : context [Req_dec_T ?x ?y] |- _ => destruct (Req_dec_T x y); try lra
         | H : context [Req_EM_T ?x ?y] |- _ => destruct (Req_EM_T x y); try lra
         end.

Lemma map_get_set {V} (k k' : string) (v : V) (m : list (string * V)) :
  map_get k (map_set k' v m) = if String.eqb k k' then Some v else map_get k m.
Proof.
  induction m as [|[k1 v1] t IH]; simpl; str_cases; simpl; str_cases.
  all: try (rewrite IH; str_cases).
Qed.

Lemma upd_form_get_some (k k' : string) (f : R -> R) st :
  map_get k st <> None -> map_get k (upd_form k' f st) <> None.
Proof.
  induction st as [|[k1 pf] t IH]; simpl; [congruence|].
  str_cases; simpl; str_cases; auto.
Qed.

Lemma upd_form_get_none (k k' : string) (f : R -> R) st :
  map_get k st = None -> map_get k (upd_form k' f st) = None.
Proof.
  induction st as [|[k1 pf] t IH]; simpl; [auto|].
  str_cases; simpl; str_cases; auto.
Qed.

(** Every entry of a store is filed under its own [id]. *)
Lemma upd_form_ids (k : string) (f : R -> R) st :
  Forall (fun '(k0, pf) => pf_id pf = k0) st ->
  Forall (fun '(k0, pf) => pf_id pf = k0) (upd_form k f st).
Proof.
  induction st as [|[k1 pf] t IH]; simpl; intros H; [constructor|].
  inversion H; subst. str_cases; constructor; auto.
Qed.

Lemma map_get_ids {V} (P : string -> V -> Prop) k v (m : list (string * V)) :
  Forall (fun '(k0, x) => P k0 x) m -> map_get k m = Some v -> P k v.
Proof.
  induction m as [|[k1 v1] t IH]; simpl; intros H E; [congruence|].
  inversion H; subst. destruct (String.eqb_spec k k1).
  - subst. injection E as <-. assumption.
  - auto.
Qed.

(** Adding [s] to the [form] of a present key adds [s] to the total. *)
Lemma total_form_upd (k : string) (f : R -> R) (s : R) st :
  (forall x, f x = x + s) -> map_get k st <> None ->
  total_form (upd_form k f st) = total_form st + s.
Proof.
  intros Hf; induction st as [|[k1 pf] t IH]; simpl; [congruence|].
  str_cases; simpl; intros H.
  - rewrite Hf; lra.
  - rewrite IH by exact H; lra.
Qed.

(** ** Form Learner: one replay step *)

(** C2: for a match applied during the replay (two players a side, all four
    in the store), team 1's members each receive [K * (actual - expected1) / 2]
    with [K = 0.18] and [expected1 = 1 / (1 + 10 ^ ((effT2 - effT1) / 1.2))],
    team 2's members each receive its negation, so the deltas of the two
    teams cancel and the sum of all forms in the store is unchanged. *)
Theorem form_step_zero_sum (st : list (string * PlayerForm)) (m : Match)
  (a b c d : string) (f1 f2 f3 f4 : PlayerForm) :
  m_team1 m = [a; b] -> m_team2 m = [c; d] ->
  map_get a st = Some f1 -> map_get b st = Some f2 ->
  map_get c st = Some f3 -> map_get d st = Some f4 ->
  let effTeam1 := (pf_baseRating f1 + pf_form f1) + (pf_baseRating f2 + pf_form f2) in
  let effTeam2 := (pf_baseRating f3 + pf_form f3) + (pf_baseRating f4 + pf_form f4) in
  let expected1 := 1 / (1 + Rpower 10 ((effTeam2 - effTeam1) / (12 / 10))) in
  let actual := if Nat.eqb (m_winner m) 1 then 1 else 0 in
  let share := 18 / 100 * (actual - expected1) / 2 in
  form_step st m =
    upd_form d (fun x => x - share)
      (upd_form c (fun x => x - share)
        (upd_form b (fun x => x + share)
          (upd_form a (fun x => x + share) st)))
  /\ share + share = - ((- share) + (- share))
  /\ total_form (form_step st m) = total_form st.
Proof.
  intros H1 H2 Ha Hb Hc Hd effTeam1 effTeam2 expected1 actual share.
  assert (Hstep : form_step st m =
    upd_form d (fun x => x - share)
      (upd_form c (fun x => x - share)
        (upd_form b (fun x => x + share)
          (upd_form a (fun x => x + share) st)))).
  { unfold form_step. rewrite H1, H2, Ha, Hb, Hc, Hd. reflexivity. }
  split; [exact Hstep|]. split; [lra|].
  rewrite Hstep.
  assert (Pa : map_get a st <> None) by congruence.
  assert (Pb : map_get b st <> None) by congruence.
  assert (Pc : map_get c st <> None) by congruence.
  assert (Pd : map_get d st <> None) by congruence.
  rewrite (total_form_upd d _ (- share)); [| intros; lra |
    repeat apply upd_form_get_some; exact Pd].
  rewrite (total_form_upd c _ (- share)); [| intros; lra |
    repeat apply upd_form_get_some; exact Pc].
  rewrite (total_form_upd b _ share); [| intros; lra |
    repeat apply upd_form_get_some; exact Pb].
  rewrite (total_form_upd a _ share); [| intros; lra | exact Pa].
  lra.
Qed.

(** C2 applied to a concrete 2v2 match over a four-player store. *)
Lemma form_step_zero_sum_witness :
  let f := fun id r => mkPlayerForm id r 0 r in
  let st := [("A", f "A" 4); ("B", f "B" 2); ("C", f "C" 3); ("D", f "D" 3)] in
  let m := mkMatch 0 ["A"; "B"] ["C"; "D"] 1 in
  exists share,
    form_step st m =
      upd_form "D" (fun x => x - share)
        (upd_form "C" (fun x => x - share)
          (upd_form "B" (fun x => x + share)
            (upd_form "A" (fun x => x + share) st)))
    /\ total_form (form_step st m) = total_form st.
Proof.
  intros f st m.
  destruct (form_step_zero_sum st m "A" "B" "C" "D" (f "A" 4) (f "B" 2)
              (f "C" 3) (f "D" 3) eq_refl eq_refl eq_refl eq_refl eq_refl eq_refl)
    as [E [_ T]].
  eexists. split; [exact E | exact T].
Defined.

(** ** Form Learner: initialisation *)

(** C9 as stated, on the player whose [tournamentRating] is [-1]: the raw
    rating [-1] is neither a positive value [<= 20] nor is the base rating
    [3.0]. *)
Lemma baseRating_negative_counterexample :
  ~ (forall p : Player,
       ~ (0 < rawRating p <= 20) -> pf_baseRating (init_form p) = 3).
Proof.
  intros H.
  set (p := mkPlayer "A" None (Some (-1))).
  assert (Raw : rawRating p = -1).
  { unfold rawRating, js_or, Reqb, p; simpl. rdec. }
  specialize (H p). rewrite Raw in H.
  assert (Hb : pf_baseRating (init_form p) = -1).
  { unfold init_form, baseRating_of; simpl. rewrite Raw.
    unfold Rltb, js_or, Reqb. rdec. }
  rewrite Hb in H. lra.
Qed.

(** C9 (amended): the raw rating is [tournamentRating || initialPoints || 0];
    the base rating is [3.0] when the raw rating is above [20] or is [0]
    (both fields missing or zero), and the raw rating itself otherwise,
    negative values included; the form starts at [0]. *)
Theorem init_form_base (p : Player) :
  let raw := rawRating p in
  (20 < raw -> pf_baseRating (init_form p) = 3)
  /\ (raw = 0 -> pf_baseRating (init_form p) = 3)
  /\ (raw <= 20 -> raw <> 0 -> pf_baseRating (init_form p) = raw)
  /\ ((p_tournamentRating p = None \/ p_tournamentRating p = Some 0) ->
      (p_initialPoints p = None \/ p_initialPoints p = Some 0) ->
      pf_baseRating (init_form p) = 3)
  /\ pf_form (init_form p) = 0
  /\ pf_id (init_form p) = p_id p.
Proof.
  intros raw.
  assert (Hb : pf_baseRating (init_form p) = baseRating_of p) by reflexivity.
  assert (Hr0 : (p_tournamentRating p = None \/ p_tournamentRating p = Some 0) ->
                (p_initialPoints p = None \/ p_initialPoints p = Some 0) ->
                raw = 0).
  { intros [T|T] [I|I]; unfold raw, rawRating, js_or, Reqb; rewrite T, I;
      cbv beta iota; rdec; reflexivity. }
  rewrite Hb; unfold baseRating_of, Rltb, js_or, Reqb; fold raw.
  repeat split; intros; try (rewrite ?Hr0 by assumption); rdec.
Qed.

(** ** Synergy Estimator *)

Lemma map_set_keys_in {V} (k k' : string) (v : V) m :
  In k' (map fst (map_set k v m)) -> k' = k \/ In k' (map fst m).
Proof.
  induction m as [|[k1 v1] t IH]; simpl.
  - intros [H|[]]; auto.
  - str_cases; simpl; intros [H|H]; auto.
    destruct (IH H); auto.
Qed.

Lemma map_set_nodup {V} (k : string) (v : V) m :
  NoDup (map fst m) -> NoDup (map fst (map_set k v m)).
Proof.
  induction m as [|[k1 v1] t IH]; simpl; intros H.
  - constructor; [intros []|constructor].
  - inversion H; subst. str_cases; simpl; constructor; auto.
    intros Hin. apply map_set_keys_in in Hin. destruct Hin; auto.
Qed.

Lemma count_pair_inv k won st :
  stats_inv st -> stats_inv (count_pair k won st).
Proof.
  intros [Hnd Hg]. unfold count_pair.
  destruct (map_get k st) as [s0|] eqn:E.
  - cbv zeta; rewrite E.
    split; [apply map_set_nodup; exact Hnd|].
    intros k' s'. rewrite map_get_set. destruct (String.eqb_spec k' k).
    + intros H; injection H as <-; simpl; lia.
    + apply Hg.
  - rewrite map_get_set, String.eqb_refl. split.
    + apply map_set_nodup, map_set_nodup; exact Hnd.
    + intros k' s'. rewrite !map_get_set. destruct (String.eqb_spec k' k).
      * intros H; injection H as <-; simpl; lia.
      * apply Hg.
Qed.

Lemma pair_stats_inv ms : stats_inv (pair_stats ms).
Proof.
  unfold pair_stats.
  assert (H0 : stats_inv []) by (split; [constructor | intros k s H; discriminate]).
  revert H0. generalize (@nil (string * PairStat)).
  induction ms as [|m t IH]; simpl; intros st Hst; [exact Hst|].
  apply IH. unfold synergy_step.
  destruct (m_team1 m) as [|a [|b [|]]]; destruct (m_team2 m) as [|c [|d [|]]];
    repeat apply count_pair_inv; exact Hst.
Qed.

(** The [synergyMap.set] loop over keys recorded once each. *)
Lemma fold_set_get {V W} (f : V -> W) (l : list (string * V)) acc k :
  NoDup (map fst l) ->
  map_get k (fold_left (fun acc '(k', s) => map_set k' (f s) acc) l acc)
  = match map_get k l with Some s => Some (f s) | None => map_get k acc end.
Proof.
  revert acc; induction l as [|[k1 v1] t IH]; simpl; intros acc Hnd; [reflexivity|].
  inversion Hnd; subst. rewrite IH by assumption.
  destruct (String.eqb_spec k k1).
  - subst. destruct (map_get k1 t) eqn:E.
    + exfalso. apply H1. clear -E. induction t as [|[k2 v2] t' IH]; simpl in *;
        [discriminate|].
      destruct (String.eqb_spec k1 k2); [left; congruence | right; auto].
    + rewrite map_get_set, String.eqb_refl. reflexivity.
  - destruct (map_get k t); [reflexivity|]. rewrite map_get_set. str_cases.
Qed.

(** C7: a key with at least one recorded game is mapped to
    [ln(p' / (1 - p')) * (games / (games + 6))] with [p'] the smoothed win
    rate [(wins + 2) / (games + 4)] clamped to [[0.01, 0.99]]; a key with no
    recorded game has no entry, and the [get(k) || 0] lookup of the pairing
    cost reads such an absent key as [0]. *)
Theorem synergy_matrix_spec (ms : list Match) (k : string) :
  let syn := calculateSynergyMatrix ms in
  ((1 <= recorded_games ms k)%nat ->
     exists s, map_get k (pair_stats ms) = Some s
       /\ games s = recorded_games ms k
       /\ let g := INR (games s) in
          let w := INR (wins s) in
          let p' := Rmax (1 / 100) (Rmin (99 / 100) ((w + 2) / (g + 4))) in
          map_get k syn = Some (ln (p' / (1 - p')) * (g / (g + 6))))
  /\ (recorded_games ms k = 0%nat -> map_get k syn = None)
  /\ (map_get k syn = None -> synergy_lookup syn k = 0).
Proof.
  intros syn.
  destruct (pair_stats_inv ms) as [Hnd Hg].
  assert (Hget : map_get k syn =
            match map_get k (pair_stats ms) with
            | Some s => Some (synergy_of s) | None => None end).
  { unfold syn, calculateSynergyMatrix. rewrite fold_set_get by exact Hnd.
    destruct (map_get k (pair_stats ms)); reflexivity. }
  unfold recorded_games. split; [|split].
  - destruct (map_get k (pair_stats ms)) as [s|] eqn:E; intros Hle; [|lia].
    exists s. split; [reflexivity|]. split; [reflexivity|].
    rewrite Hget. reflexivity.
  - destruct (map_get k (pair_stats ms)) as [s|] eqn:E; intros H0.
    + specialize (Hg k s E). lia.
    + rewrite Hget. reflexivity.
  - intros H. unfold synergy_lookup. rewrite H. reflexivity.
Qed.

(** ** Unresolvable player ids in the learners *)

Lemma init_stats_get_none (roster : list Player) (id : string) :
  ~ In id (map p_id roster) -> map_get id (init_stats roster) = None.
Proof.
  unfold init_stats. intros Hn.
  assert (H0 : map_get id (@nil (string * PlayerForm)) = None) by reflexivity.
  revert H0. generalize (@nil (string * PlayerForm)).
  induction roster as [|p t IH]; simpl in *; intros st Hst; [exact Hst|].
  apply IH; [tauto|]. rewrite map_get_set. str_cases. tauto.
Qed.

Lemma form_step_get_none st m id :
  map_get id st = None -> map_get id (form_step st m) = None.
Proof.
  intros H. unfold form_step.
  destruct (m_team1 m) as [|a [|b [|]]]; destruct (m_team2 m) as [|c [|d [|]]];
    try exact H.
  destruct (map_get a st), (map_get b st), (map_get c st), (map_get d st);
    try exact H.
  repeat apply upd_form_get_none. exact H.
Qed.

Lemma replay_get_none st ms id :
  map_get id st = None -> map_get id (replay st ms) = None.
Proof.
  unfold replay. revert st; induction ms as [|m t IH]; simpl; intros st H;
    [exact H|]. apply IH, form_step_get_none, H.
Qed.

(** A 2v2 match naming an id absent from the store is skipped whole. *)
Lemma form_step_skip st m id :
  In id (m_team1 m ++ m_team2 m) -> map_get id st = None -> form_step st m = st.
Proof.
  intros Hin Hn. unfold form_step.
  destruct (m_team1 m) as [|a [|b [|]]]; destruct (m_team2 m) as [|c [|d [|]]];
    try reflexivity.
  simpl in Hin.
  destruct (map_get a st) eqn:Ea, (map_get b st) eqn:Eb,
           (map_get c st) eqn:Ec, (map_get d st) eqn:Ed; try reflexivity.
  destruct Hin as [E|[E|[E|[E|[]]]]]; subst; congruence.
Qed.

Lemma count_pair_games k' k won st :
  match map_get k' (count_pair k won st) with Some s => games s | None => 0%nat end
  = if String.eqb k' k
    then S (match map_get k' st with Some s => games s | None => 0%nat end)
    else match map_get k' st with Some s => games s | None => 0%nat end.
Proof.
  unfold count_pair. destruct (map_get k st) as [s0|] eqn:E; cbv zeta.
  - rewrite E, map_get_set. destruct (String.eqb_spec k' k); subst;
      [rewrite E|]; reflexivity.
  - rewrite map_get_set, String.eqb_refl, !map_get_set.
    destruct (String.eqb_spec k' k); subst; [rewrite E|]; reflexivity.
Qed.

Lemma count_pair_games_le k' k won st :
  (match map_get k' st with Some s => games s | None => 0%nat end
   <= match map_get k' (count_pair k won st) with Some s => games s | None => 0%nat end)%nat.
Proof. rewrite count_pair_games. destruct (String.eqb k' k); lia. Qed.

Lemma count_pair_get k' k won st :
  map_get k' (count_pair k won st) =
  if String.eqb k' k
  then Some (match map_get k st with
             | Some s => mkPairStat (S (games s)) (if won then S (wins s) else wins s)
             | None => mkPairStat 1 (if won then 1 else 0)
             end)
  else map_get k' st.
Proof.
  unfold count_pair. destruct (map_get k st) as [s0|] eqn:E; cbv zeta.
  - rewrite E, map_get_set. destruct (String.eqb_spec k' k); reflexivity.
  - rewrite map_get_set, String.eqb_refl, !map_get_set.
    destruct (String.eqb_spec k' k); reflexivity.
Qed.

(** One replayed match adds to the counters of key [k] one game per
    two-player team whose pair key is [k], and one win when that team won. *)
Lemma synergy_step_counts st m k :
  let g st0 := match map_get k st0 with Some s => games s | None => 0%nat end in
  let w st0 := match map_get k st0 with Some s => wins s | None => 0%nat end in
  let hit t := match t with [a; b] => String.eqb (getPairKey a b) k | _ => false end in
  g (synergy_step st m)
  = (g st + (if hit (m_team1 m) then 1 else 0)
     + (if hit (m_team2 m) then 1 else 0))%nat
  /\ w (synergy_step st m)
     = (w st + (if hit (m_team1 m) && Nat.eqb (m_winner m) 1 then 1 else 0)
        + (if hit (m_team2 m) && Nat.eqb (m_winner m) 2 then 1 else 0))%nat.
Proof.
  intros g w hit.
  assert (C : forall k0 won st0,
    g (count_pair k0 won st0) = (g st0 + if String.eqb k0 k then 1 else 0)%nat
    /\ w (count_pair k0 won st0)
       = (w st0 + if String.eqb k0 k && won then 1 else 0)%nat).
  { intros k0 won st0. unfold g, w. rewrite count_pair_get, (String.eqb_sym k0 k).
    destruct (String.eqb_spec k k0) as [->|Ne].
    - destruct (map_get k0 st0); destruct won; simpl; split; lia.
    - simpl. split; lia. }
  unfold synergy_step, hit.
  destruct (m_team1 m) as [|a [|b [|]]]; destruct (m_team2 m) as [|c [|d [|]]];
    simpl andb; cbn iota;
    (split; [repeat rewrite (proj1 (C _ _ _)) | repeat rewrite (proj2 (C _ _ _))]);
    lia.
Qed.

(** C4 as stated: the match [A, B] vs [C, D] against an empty roster names
    players absent from the roster, yet the Synergy Estimator counts a game
    for the pair key ["A-B"]. *)
Lemma synergy_unknown_ids_counterexample :
  ~ (forall (roster : list Player) (m : Match),
       (exists id, In id (m_team1 m ++ m_team2 m) /\ ~ In id (map p_id roster)) ->
       forall k, recorded_games [m] k = 0%nat).
Proof.
  intros H.
  specialize (H [] (mkMatch 0 ["A"; "B"] ["C"; "D"] 1)).
  assert (Hex : exists id, In id (["A"; "B"] ++ ["C"; "D"]) /\ ~ In id (@nil string))
    by (exists "A"; split; [simpl; auto | intros []]).
  specialize (H Hex "A-B"). vm_compute in H. discriminate.
Qed.

(** C4 (amended): the Form Learner skips whole any 2v2 match naming an id
    absent from the roster, at any point of the replay; the Synergy
    Estimator does not consult the roster, and the match still adds a game,
    and a win when that team won, to the pair key of each of its two-player
    teams: exactly one of each when the other team's pair key differs.
    Both learners are total functions, with no error path. *)
Theorem learners_unknown_ids (roster : list Player) (pre : list Match)
  (m : Match) (id : string) :
  In id (m_team1 m ++ m_team2 m) -> ~ In id (map p_id roster) ->
  let st := replay (init_stats roster) pre in
  form_step st m = st
  /\ (forall a b, m_team1 m = [a; b] ->
        let k := getPairKey a b in
        (S (recorded_games pre k) <= recorded_games (pre ++ [m]) k)%nat
        /\ (m_winner m = 1%nat ->
            (S (recorded_wins pre k) <= recorded_wins (pre ++ [m]) k)%nat)
        /\ ((forall c d, m_team2 m = [c; d] -> getPairKey c d <> k) ->
            recorded_games (pre ++ [m]) k = S (recorded_games pre k)
            /\ recorded_wins (pre ++ [m]) k
               = (if Nat.eqb (m_winner m) 1 then S (recorded_wins pre k)
                  else recorded_wins pre k)))
  /\ (forall c d, m_team2 m = [c; d] ->
        let k := getPairKey c d in
        (S (recorded_games pre k) <= recorded_games (pre ++ [m]) k)%nat
        /\ (m_winner m = 2%nat ->
            (S (recorded_wins pre k) <= recorded_wins (pre ++ [m]) k)%nat)
        /\ ((forall a b, m_team1 m = [a; b] -> getPairKey a b <> k) ->
            recorded_games (pre ++ [m]) k = S (recorded_games pre k)
            /\ recorded_wins (pre ++ [m]) k
               = (if Nat.eqb (m_winner m) 2 then S (recorded_wins pre k)
                  else recorded_wins pre k))).
Proof.
  intros Hin Hn st. split.
  { apply (form_step_skip _ _ id Hin).
    apply replay_get_none, init_stats_get_none, Hn. }
  split; intros x y Ht; cbv zeta;
    unfold recorded_games, recorded_wins, pair_stats; rewrite !fold_left_app;
    cbn [fold_left];
    destruct (synergy_step_counts (fold_left synergy_step pre []) m (getPairKey x y))
      as [G W];
    cbv zeta in G, W; rewrite G, W; clear G W; rewrite Ht; cbn iota;
    rewrite String.eqb_refl.
  - destruct (m_team2 m) as [|c [|d [|]]] eqn:E2;
      destruct (Nat.eqb_spec (m_winner m) 1); destruct (Nat.eqb_spec (m_winner m) 2);
      simpl andb; cbn iota;
      try (split; [lia | split; [intros; lia | intros _; split; lia]]).
    all: destruct (String.eqb_spec (getPairKey c d) (getPairKey x y)) as [Eq|Ne];
      simpl andb; cbn iota;
      (split; [lia | split; [intros; lia | intros Hd;
         first [split; lia | exfalso; exact (Hd c d eq_refl Eq)]]]).
  - destruct (m_team1 m) as [|a [|b [|]]] eqn:E1;
      destruct (Nat.eqb_spec (m_winner m) 1); destruct (Nat.eqb_spec (m_winner m) 2);
      simpl andb; cbn iota;
      try (split; [lia | split; [intros; lia | intros _; split; lia]]).
    all: destruct (String.eqb_spec (getPairKey a b) (getPairKey x y)) as [Eq|Ne];
      simpl andb; cbn iota;
      (split; [lia | split; [intros; lia | intros Hd;
         first [split; lia | exfalso; exact (Hd a b eq_refl Eq)]]]).
Qed.

(** C4 (amended) on the roster [A; B; C] and the match [A, B] vs [C, X]
    won by [A, B]: the match is skipped by the Form Learner, and the keys
    ["A-B"] and ["C-X"] each get one game, ["A-B"] also one win. *)
Lemma learners_unknown_ids_witness :
  let roster := [mkPlayer "A" None (Some 4); mkPlayer "B" None (Some 3);
                 mkPlayer "C" None (Some 3)] in
  let m := mkMatch 0 ["A"; "B"] ["C"; "X"] 1 in
  form_step (replay (init_stats roster) []) m = replay (init_stats roster) []
  /\ recorded_games [m] "A-B" = 1%nat /\ recorded_wins [m] "A-B" = 1%nat
  /\ recorded_games [m] "C-X" = 1%nat /\ recorded_wins [m] "C-X" = 0%nat.
Proof.
  intros roster m.
  destruct (learners_unknown_ids roster [] m "X") as [E [T1 T2]].
  - simpl; tauto.
  - simpl; intros [H|[H|[H|[]]]]; discriminate.
  - destruct (T1 "A" "B" eq_refl) as [_ [_ X1]].
    destruct (X1 ltac:(intros c d Hcd; injection Hcd as <- <-; discriminate)) as [G1 W1].
    destruct (T2 "C" "X" eq_refl) as [_ [_ X2]].
    destruct (X2 ltac:(intros a b Hab; injection Hab as <- <-; discriminate)) as [G2 W2].
    split; [exact E|]. simpl app in G1, W1, G2, W2.
    assert (KA : getPairKey "A" "B" = "A-B") by reflexivity.
    assert (KC : getPairKey "C" "X" = "C-X") by reflexivity.
    rewrite KA in G1, W1. rewrite KC in G2, W2.
    rewrite G1, W1, G2, W2. repeat split; reflexivity.
Defined.

(** ** Pair Optimizer: the local search never raises the total cost *)

Lemma total_cost_acc (l : list GeneratedPair) (a : R) :
  fold_left (fun s p => s + cost p) l a = a + fold_right (fun p s => cost p + s) 0 l.
Proof.
  revert a; induction l as [|p t IH]; simpl; intros a; [lra|].
  rewrite IH. lra.
Qed.

Lemma total_cost_cons p l : total_cost (p :: l) = cost p + total_cost l.
Proof. unfold total_cost. rewrite !total_cost_acc. simpl. lra. Qed.

Lemma list_set_length {A} (l : list A) i v : List.length (list_set l i v) = List.length l.
Proof.
  revert i; induction l as [|x t IH]; intros [|i]; simpl; auto.
Qed.

Lemma nth_list_set_other {A} (l : list A) i j v d :
  j <> i -> nth j (list_set l i v) d = nth j l d.
Proof.
  revert i j; induction l as [|x t IH]; intros [|i] [|j] H; simpl; auto.
  congruence.
Qed.

Lemma total_cost_list_set l i v :
  (i < List.length l)%nat ->
  total_cost (list_set l i v) = total_cost l - cost (nth i l dummy_pair) + cost v.
Proof.
  revert i; induction l as [|p t IH]; intros [|i] H; simpl in *; try lia.
  - rewrite !total_cost_cons. lra.
  - rewrite !total_cost_cons, IH by lia. lra.
Qed.

Lemma pick_indices_ok n draw :
  (2 <= n)%nat ->
  (fst (pick_indices n draw) < n)%nat /\ (snd (pick_indices n draw) < n)%nat
  /\ fst (pick_indices n draw) <> snd (pick_indices n draw).
Proof.
  intros Hn. unfold pick_indices; simpl.
  set (i := Nat.modulo (fst draw) n).
  set (r := Nat.modulo (snd draw) (n - 1)).
  assert (Hi : (i < n)%nat) by (apply Nat.mod_upper_bound; lia).
  assert (Hr : (r < n - 1)%nat) by (apply Nat.mod_upper_bound; lia).
  split; [exact Hi|]. split; [apply Nat.mod_upper_bound; lia|].
  destruct (Nat.lt_ge_cases (i + 1 + r) n) as [Hlt|Hge].
  - rewrite Nat.mod_small by exact Hlt. lia.
  - replace (i + 1 + r)%nat with ((i + 1 + r - n) + 1 * n)%nat by lia.
    rewrite Nat.Div0.mod_add, Nat.mod_small by lia. lia.
Qed.

Lemma swap_step_spec syn recentPairs draw pairs :
  (2 <= List.length pairs)%nat ->
  let '(pairs', cur') :=
    swap_step syn recentPairs (pick_indices (List.length pairs) draw) pairs
              (total_cost pairs) in
  ((pairs' = pairs /\ cur' = total_cost pairs)
   \/ (total_cost pairs' < total_cost pairs /\ cur' = total_cost pairs'))
  /\ List.length pairs' = List.length pairs.
Proof.
  intros Hn.
  destruct (pick_indices_ok (List.length pairs) draw Hn) as [H1 [H2 H12]].
  destruct (pick_indices (List.length pairs) draw) as [i j]; simpl in *.
  unfold swap_step, Rltb.
  destruct (Rlt_dec _ _) as [Hlt|Hge]; [|split; [left; split|]; reflexivity].
  split; [right|rewrite !list_set_length; reflexivity].
  rewrite total_cost_list_set by (rewrite list_set_length; exact H2).
  rewrite nth_list_set_other by congruence.
  rewrite total_cost_list_set by exact H1.
  unfold make_pair; simpl. split; lra.
Qed.

Lemma local_search_le draws syn recentPairs k n pairs :
  (total_cost (local_search draws syn recentPairs k n pairs (total_cost pairs))
   <= total_cost pairs).
Proof.
  revert k pairs; induction n as [|n IH]; intros k pairs; [simpl; lra|].
  cbn [local_search].
  destruct (Nat.ltb_spec (List.length pairs) 2) as [Hl|Hl]; [lra|].
  pose proof (swap_step_spec syn recentPairs (draws k) pairs Hl) as Hs.
  destruct (swap_step _ _ _ _ _) as [pairs' cur'].
  destruct Hs as [[[-> ->]|[Hlt ->]] _].
  - apply IH.
  - specialize (IH (S k) pairs'). lra.
Qed.

(** C5: an iteration with at least two pairs keeps the pairs and the running
    total, or applies a swap that strictly lowers the total recorded cost
    and keeps the running total equal to it; so, whatever the random draws,
    the returned pairs cost at most what the greedy seeding cost. *)
Theorem local_search_monotone (draws : nat -> nat * nat)
  (pool : list PlayerForm) (syn : list (string * R)) (recentPairs : list string) :
  (forall pairs draw,
     (2 <= List.length pairs)%nat ->
     let '(pairs', cur') :=
       swap_step syn recentPairs (pick_indices (List.length pairs) draw) pairs
                 (total_cost pairs) in
     (pairs' = pairs /\ cur' = total_cost pairs)
     \/ (total_cost pairs' < total_cost pairs /\ cur' = total_cost pairs'))
  /\ total_cost (generateOptimalPairs draws pool syn recentPairs)
     <= total_cost (greedy_seed pool syn recentPairs).
Proof.
  split.
  - intros pairs draw Hn. pose proof (swap_step_spec syn recentPairs draw pairs Hn) as H.
    destruct (swap_step _ _ _ _ _). tauto.
  - apply local_search_le.
Qed.

(** ** Pairs built by the engine *)

Lemma sort_by_perm {A} (lt : A -> A -> bool) (l : list A) :
  Permutation (sort_by lt l) l.
Proof.
  assert (Hins : forall x acc, Permutation (insert_by lt x acc) (x :: acc)).
  { intros x acc; induction acc as [|y t IH]; simpl; [auto|].
    destruct (lt x y); [auto|].
    eapply perm_trans; [apply perm_skip, IH | apply perm_swap]. }
  unfold sort_by. rewrite <- (app_nil_r l) at 2.
  generalize (@nil A). induction l as [|x t IH]; intros acc; simpl; [auto|].
  eapply perm_trans; [apply IH|].
  eapply perm_trans; [apply Permutation_app_head, Hins|].
  apply Permutation_sym, Permutation_middle.
Qed.

Lemma In_sort_by {A} (lt : A -> A -> bool) (l : list A) x :
  In x (sort_by lt l) -> In x l.
Proof. intros H. eapply Permutation_in; [apply sort_by_perm | exact H]. Qed.

Lemma In_firstn {A} n (l : list A) x : In x (firstn n l) -> In x l.
Proof.
  intros H. rewrite <- (firstn_skipn n l). apply in_or_app. auto.
Qed.

Lemma make_pair_ok a b c : pair_sum_ok (make_pair a b c).
Proof. unfold pair_sum_ok, make_pair; simpl. split; [reflexivity | apply Rabs_pos]. Qed.

Lemma greedy_loop_ok l used syn recentPairs :
  Forall pair_sum_ok (greedy_loop l used syn recentPairs).
Proof.
  revert used; induction l as [|p1 rest IH]; intros used; simpl; [constructor|].
  destruct (set_has (pf_id p1) used); [apply IH|].
  destruct (best_partner p1 rest used syn recentPairs) as [[p2 c]|];
    [constructor; [apply make_pair_ok | apply IH] | apply IH].
Qed.

Lemma Forall_list_set {A} (P : A -> Prop) l i v :
  Forall P l -> P v -> Forall P (list_set l i v).
Proof.
  revert i; induction l as [|x t IH]; intros [|i] Hl Hv; simpl; auto;
    inversion Hl; subst; constructor; auto.
Qed.

Lemma local_search_ok draws syn recentPairs k n pairs cur :
  Forall pair_sum_ok pairs ->
  Forall pair_sum_ok (local_search draws syn recentPairs k n pairs cur).
Proof.
  revert k pairs cur; induction n as [|n IH]; intros k pairs cur H; [exact H|].
  cbn [local_search]. destruct (Nat.ltb _ 2); [exact H|].
  unfold swap_step. destruct (pick_indices _ _) as [i j].
  destruct (Rltb _ _); apply IH; [|exact H].
  repeat apply Forall_list_set; auto using make_pair_ok.
Qed.

Lemma predict_team_spec first second :
  (second <> None -> pair_sum_ok (predict_team first second))
  /\ (second = None -> pair_single_ok (predict_team first second)).
Proof.
  unfold predict_team, pair_sum_ok, pair_single_ok.
  destruct second as [q|]; simpl; split; intros H; try congruence.
  - split; [reflexivity | apply Rabs_pos].
  - repeat split; lra.
Qed.

Lemma findTop_pairs fixedTeamIds poolIds allPlayers allMatches m :
  In m (findTopMatchupsForTeam fixedTeamIds poolIds allPlayers allMatches) ->
  pair_sum_ok (team1 m) /\ pair_sum_ok (team2 m)
  /\ handicap m = pair_handicap reason_fixed_team (team1 m) (team2 m).
Proof.
  unfold findTopMatchupsForTeam; cbv zeta.
  destruct (map_get (fst fixedTeamIds) _) as [p1|]; [|intros []].
  destruct (map_get (snd fixedTeamIds) _) as [p2|]; [|intros []].
  intros H. apply In_firstn, In_sort_by, in_map_iff in H.
  destruct H as [cand [<- Hc]]. simpl.
  apply in_map_iff in Hc. destruct Hc as [[o1 o2] [<- _]].
  split; [|split; [apply make_pair_ok | reflexivity]].
  split; [reflexivity | apply Rabs_pos].
Qed.

(** [round2] leaves a whole number unchanged. *)
Lemma round2_IZR (z : Z) : round2 (IZR z) = IZR z.
Proof.
  unfold round2, Rltb, floorZ. destruct (Rlt_dec (IZR z) 0) as [Hneg|Hpos].
  - assert (U : up (- IZR z * 100 + / 2) = (- 100 * z + 1)%Z).
    { symmetry; apply tech_up; rewrite plus_IZR, mult_IZR; simpl; lra. }
    rewrite U, minus_IZR, plus_IZR, mult_IZR. simpl. lra.
  - assert (U : up (IZR z * 100 + / 2) = (100 * z + 1)%Z).
    { symmetry; apply tech_up; rewrite plus_IZR, mult_IZR; simpl; lra. }
    rewrite U, minus_IZR, plus_IZR, mult_IZR. simpl. lra.
Qed.

(** Without match history, a player rated by a whole [tournamentRating] in
    [1..20] has that rating as effective rating. *)
Lemma no_history_effective (id : string) (z : Z) :
  (1 <= z <= 20)%Z ->
  pf_effectiveRating (finalize (init_form (mkPlayer id None (Some (IZR z)))))
  = IZR z.
Proof.
  intros [H1 H2]. apply IZR_le in H1. apply IZR_le in H2.
  unfold finalize, init_form, baseRating_of, rawRating, js_or, Rltb, Reqb; simpl.
  rdec. rewrite Rplus_0_r. apply round2_IZR.
Qed.

(** C6 as stated, on the singles query [predictMatchOutcome(['A'], ['B'])]
    with [A] rated [4]: team 1 holds [A] in both slots, its strength is [4],
    not [4 + 4]. *)
Lemma predict_singles_counterexample :
  ~ (forall team1Ids team2Ids allPlayers allMatches m,
       predictMatchOutcome team1Ids team2Ids allPlayers allMatches = Some m ->
       pair_sum_ok (team1 m)).
Proof.
  intros H.
  set (pa := mkPlayer "A" None (Some 4)).
  set (pb := mkPlayer "B" None (Some 2)).
  assert (E : exists h a,
    predictMatchOutcome ["A"] ["B"] [pa; pb] [] =
    Some (mkGeneratedMatch (predict_team (finalize (init_form pa)) None)
                           (predict_team (finalize (init_form pb)) None) 0 h a)).
  { do 2 eexists. reflexivity. }
  destruct E as [h [a E]].
  pose proof (no_history_effective "A" 4) as Ha. fold pa in Ha.
  remember (finalize (init_form pa)) as fa eqn:Efa.
  destruct (H _ _ _ _ _ E) as [Hs _]. simpl in Hs.
  rewrite Ha in Hs by lia. lra.
Qed.

(** C6 (amended): every pair of greedy seeding, of the local search, and
    both teams of every [findTopMatchupsForTeam] proposal have
    [structure >= 0] and [strength] the sum of the effective ratings of
    [player1] and [player2]; a [predictMatchOutcome] team has that shape when
    its second id is given and resolves, and otherwise holds its first player
    in both slots with [strength] that player's effective rating and
    [structure = 0]. *)
Theorem pairs_strength_structure :
  (forall pool syn recentPairs p,
     In p (greedy_seed pool syn recentPairs) -> pair_sum_ok p)
  /\ (forall draws pool syn recentPairs p,
        In p (generateOptimalPairs draws pool syn recentPairs) -> pair_sum_ok p)
  /\ (forall fixedTeamIds poolIds allPlayers allMatches m,
        In m (findTopMatchupsForTeam fixedTeamIds poolIds allPlayers allMatches) ->
        pair_sum_ok (team1 m) /\ pair_sum_ok (team2 m))
  /\ (forall team1Ids team2Ids allPlayers allMatches m,
        predictMatchOutcome team1Ids team2Ids allPlayers allMatches = Some m ->
        let forms := calculatePlayerForms allPlayers allMatches in
        (second_member team1Ids forms <> None -> pair_sum_ok (team1 m))
        /\ (second_member team1Ids forms = None -> pair_single_ok (team1 m))
        /\ (second_member team2Ids forms <> None -> pair_sum_ok (team2 m))
        /\ (second_member team2Ids forms = None -> pair_single_ok (team2 m))
        /\ 0 <= structure (team1 m) /\ 0 <= structure (team2 m)).
Proof.
  split; [|split; [|split]].
  - intros pool syn recentPairs p Hp.
    exact (proj1 (Forall_forall _ _) (greedy_loop_ok _ _ _ _) p Hp).
  - intros draws pool syn recentPairs p Hp.
    refine (proj1 (Forall_forall _ _) (local_search_ok _ _ _ _ _ _ _ _) p Hp).
    apply greedy_loop_ok.
  - intros. destruct (findTop_pairs _ _ _ _ _ H) as [H1 [H2 _]]. auto.
  - intros team1Ids team2Ids allPlayers allMatches m H forms.
    unfold predictMatchOutcome in H.
    destruct team1Ids as [|id1 r1]; [discriminate|].
    destruct team2Ids as [|id2 r2]; [discriminate|].
    fold forms in H.
    destruct (map_get id1 forms) as [t1p1|]; [|discriminate].
    destruct (map_get id2 forms) as [t2p1|]; [|discriminate].
    injection H as <-. simpl.
    destruct (predict_team_spec t1p1 (second_member (id1 :: r1) forms)) as [A1 B1].
    destruct (predict_team_spec t2p1 (second_member (id2 :: r2) forms)) as [A2 B2].
    assert (S1 : 0 <= structure (predict_team t1p1 (second_member (id1 :: r1) forms))).
    { destruct (second_member (id1 :: r1) forms) eqn:E.
      - apply A1; discriminate.
      - destruct (B1 eq_refl) as [_ [_ ->]]; lra. }
    assert (S2 : 0 <= structure (predict_team t2p1 (second_member (id2 :: r2) forms))).
    { destruct (second_member (id2 :: r2) forms) eqn:E.
      - apply A2; discriminate.
      - destruct (B2 eq_refl) as [_ [_ ->]]; lra. }
    tauto.
Qed.

(** ** Handicaps *)

Lemma step_points_spec (d : R) :
  (d <= 3 / 10 -> step_points d = 0%nat)
  /\ (3 / 10 < d <= 6 / 10 -> step_points d = 1%nat)
  /\ (6 / 10 < d <= 9 / 10 -> step_points d = 2%nat)
  /\ (9 / 10 < d <= 12 / 10 -> step_points d = 3%nat)
  /\ (12 / 10 < d -> step_points d = 4%nat)
  /\ (step_points d <= 4)%nat.
Proof.
  unfold step_points, Rltb, Rleb.
  repeat split; intros; rdec; simpl; lia.
Qed.

Lemma pair_handicap_ok prefix t1 t2 c a :
  handicap_ok (mkGeneratedMatch t1 t2 c (pair_handicap prefix t1 t2) a).
Proof.
  unfold handicap_ok, pair_handicap; simpl.
  set (sp := step_points (Rabs (strength t1 - strength t2))).
  assert (Hle : (sp <= 4)%nat) by apply step_points_spec.
  set (w := if Nat.eqb (if Rltb (strength t1) (strength t2) then 1%nat else 2%nat) 1
            then t1 else t2).
  set (weak := Rltb (pf_effectiveRating (player1 w)) SUPPORT_CUTOFF
               || Rltb (pf_effectiveRating (player2 w)) SUPPORT_CUTOFF).
  destruct (Nat.ltb_spec 0 sp) as [Hpos|Hz]; simpl.
  - destruct weak; simpl.
    + exists (S sp). repeat split; try lia; try discriminate.
      intros h E; injection E as <-; reflexivity.
    + exists sp. destruct (Nat.ltb_spec 0 sp); [|lia].
      repeat split; try lia; try discriminate.
      intros h E; injection E as <-; reflexivity.
  - exists sp. destruct (Nat.ltb_spec 0 sp); [lia|].
    repeat split; auto; try lia; intros; discriminate.
Qed.

Lemma matchups_loop_handicap fuel pool recentMatches m :
  In m (matchups_loop fuel pool recentMatches) ->
  handicap m = pair_handicap reason_scheduler (team1 m) (team2 m).
Proof.
  revert pool; induction fuel as [|fuel IH]; intros pool; simpl; [intros []|].
  destruct pool as [|t1 [|t2 rest]]; [intros []|intros []|].
  destruct (best_opponent _ _ _ _ _) as [[i c]|]; [|apply IH].
  intros [<-|H]; [reflexivity | eapply IH; exact H].
Qed.

Lemma predict_handicap_ok team1Ids team2Ids allPlayers allMatches m :
  predictMatchOutcome team1Ids team2Ids allPlayers allMatches = Some m ->
  handicap_ok m.
Proof.
  unfold predictMatchOutcome.
  destruct team1Ids as [|id1 r1]; [discriminate|].
  destruct team2Ids as [|id2 r2]; [discriminate|].
  destruct (map_get id1 _) as [t1p1|]; [|discriminate].
  destruct (map_get id2 _) as [t2p1|]; [|discriminate].
  intros E; injection E as <-. unfold handicap_ok; simpl.
  match goal with |- context [step_points ?x] => set (sp := step_points x) end.
  assert (Hle : (sp <= 4)%nat) by apply step_points_spec.
  destruct (Nat.ltb_spec 0 sp) as [Hpos|Hz]; simpl.
  - match goal with |- context [if ?b then S sp else sp] => destruct b end; simpl.
    + exists (S sp). repeat split; try lia; try discriminate.
      intros h E; injection E as <-; reflexivity.
    + exists sp. destruct (Nat.ltb_spec 0 sp); [|lia].
      repeat split; try lia; try discriminate.
      intros h E; injection E as <-; reflexivity.
  - exists sp. destruct (Nat.ltb_spec 0 sp); [lia|].
    repeat split; auto; try lia; intros; discriminate.
Qed.

(** C8: the base points are the step function of [diff]: [0] up to [0.3],
    [1] up to [0.6], [2] up to [0.9], [3] up to [1.2] and [4] for every
    larger gap; in every proposal of the Match Scheduler, of
    [findTopMatchupsForTeam] and of [predictMatchOutcome] the points are the
    base points plus at most one support point given only on positive base
    points, lie in [0..5], and a handicap is recorded exactly when they are
    positive. *)
Theorem handicap_step_function :
  (forall d, d <= 3 / 10 -> step_points d = 0%nat)
  /\ (forall d, 3 / 10 < d <= 6 / 10 -> step_points d = 1%nat)
  /\ (forall d, 6 / 10 < d <= 9 / 10 -> step_points d = 2%nat)
  /\ (forall d, 9 / 10 < d <= 12 / 10 -> step_points d = 3%nat)
  /\ (forall d, 12 / 10 < d -> step_points d = 4%nat)
  /\ (forall teams recentMatches m,
        In m (generateMatchups teams recentMatches) -> handicap_ok m)
  /\ (forall fixedTeamIds poolIds allPlayers allMatches m,
        In m (findTopMatchupsForTeam fixedTeamIds poolIds allPlayers allMatches) ->
        handicap_ok m)
  /\ (forall team1Ids team2Ids allPlayers allMatches m,
        predictMatchOutcome team1Ids team2Ids allPlayers allMatches = Some m ->
        handicap_ok m).
Proof.
  repeat split; try (intros d Hd; apply step_points_spec; exact Hd).
  - intros teams recentMatches m H.
    apply matchups_loop_handicap in H as Hh.
    destruct m as [t1 t2 c h a]; simpl in *; subst h. apply pair_handicap_ok.
  - intros fixedTeamIds poolIds allPlayers allMatches m H.
    destruct (findTop_pairs _ _ _ _ _ H) as [_ [_ Hh]].
    destruct m as [t1 t2 c h a]; simpl in *; subst h. apply pair_handicap_ok.
  - apply predict_handicap_ok.
Qed.

(** ** The main entry point *)

Lemma even_mod2 (n : nat) : Nat.even n = Nat.eqb (Nat.modulo n 2) 0.
Proof.
  induction n as [n IH] using lt_wf_ind.
  destruct n as [|[|n]]; [reflexivity | reflexivity |].
  change (Nat.even (S (S n))) with (Nat.even n).
  replace (S (S n)) with (n + 1 * 2)%nat by lia.
  rewrite Nat.Div0.mod_add. apply IH. lia.
Qed.

Lemma map_set_get_some {V} (k k' : string) (v : V) m :
  map_get k m <> None \/ k = k' -> map_get k (map_set k' v m) <> None.
Proof.
  rewrite map_get_set. destruct (String.eqb_spec k k'); [congruence|].
  intros [H|H]; congruence.
Qed.

Lemma map_set_ids (k : string) (v : PlayerForm) m :
  pf_id v = k ->
  Forall (fun '(k0, pf) => pf_id pf = k0) m ->
  Forall (fun '(k0, pf) => pf_id pf = k0) (map_set k v m).
Proof.
  intros Hv; induction m as [|[k1 v1] t IH]; simpl; intros H.
  - constructor; [exact Hv | constructor].
  - apply Forall_cons_iff in H as [Hh Ht].
    destruct (String.eqb_spec k k1) as [->|Hne]; constructor; auto.
Qed.

(** Invariant of the Form Learner's store: entries filed under their own
    [id], and every roster id present. *)
Lemma init_stats_inv (players : list Player) :
  Forall (fun '(k0, pf) => pf_id pf = k0) (init_stats players)
  /\ forall p, In p players -> map_get (p_id p) (init_stats players) <> None.
Proof.
  unfold init_stats.
  assert (H : forall (acc : list (string * PlayerForm)),
    Forall (fun '(k0, pf) => pf_id pf = k0) acc ->
    Forall (fun '(k0, pf) => pf_id pf = k0)
      (fold_left (fun st p => map_set (p_id p) (init_form p) st) players acc)
    /\ forall k, (map_get k acc <> None \/ In k (map p_id players)) ->
       map_get k (fold_left (fun st p => map_set (p_id p) (init_form p) st)
                            players acc) <> None).
  { induction players as [|p t IH]; simpl; intros acc Hacc.
    - split; [exact Hacc|]. intros k [H|[]]; exact H.
    - destruct (IH (map_set (p_id p) (init_form p) acc)) as [I1 I2].
      { apply map_set_ids; [reflexivity | exact Hacc]. }
      split; [exact I1|]. intros k Hk. apply I2.
      destruct Hk as [Hk|[Hk|Hk]].
      + left. apply map_set_get_some. auto.
      + left. apply map_set_get_some. auto.
      + right. exact Hk. }
  destruct (H [] (Forall_nil _)) as [H1 H2]. split; [exact H1|].
  intros p Hp. apply H2. right. apply in_map, Hp.
Qed.

Lemma form_step_inv st m :
  Forall (fun '(k0, pf) => pf_id pf = k0) st ->
  Forall (fun '(k0, pf) => pf_id pf = k0) (form_step st m)
  /\ forall k, map_get k st <> None -> map_get k (form_step st m) <> None.
Proof.
  intros H. unfold form_step.
  destruct (m_team1 m) as [|a [|b [|]]]; destruct (m_team2 m) as [|c [|d [|]]];
    try (split; [exact H | auto]).
  destruct (map_get a st), (map_get b st), (map_get c st), (map_get d st);
    try (split; [exact H | auto]).
  split.
  - repeat apply upd_form_ids. exact H.
  - intros k Hk. repeat apply upd_form_get_some. exact Hk.
Qed.

Lemma calculatePlayerForms_get (players : list Player) (ms : list Match) p :
  In p players ->
  exists f, map_get (p_id p) (calculatePlayerForms players ms) = Some f
            /\ pf_id f = p_id p.
Proof.
  intros Hp. destruct (init_stats_inv players) as [I1 I2].
  assert (R : forall st ms',
    Forall (fun '(k0, pf) => pf_id pf = k0) st -> map_get (p_id p) st <> None ->
    Forall (fun '(k0, pf) => pf_id pf = k0) (replay st ms')
    /\ map_get (p_id p) (replay st ms') <> None).
  { intros st ms'; revert st; induction ms' as [|m t IH]; simpl; intros st H1 H2;
      [auto|].
    destruct (form_step_inv st m H1) as [F1 F2]. apply IH; auto. }
  destruct (R _ (sort_by date_asc ms) I1 (I2 p Hp)) as [F1 F2].
  unfold calculatePlayerForms.
  set (st := replay (init_stats players) (sort_by date_asc ms)) in *.
  destruct (map_get (p_id p) st) as [f|] eqn:E; [|congruence].
  exists (finalize f).
  assert (Hid : pf_id f = p_id p)
    by exact (map_get_ids (fun k0 pf => pf_id pf = k0) _ _ _ F1 E).
  split; [|exact Hid].
  clear -E. induction st as [|[k pf] t IH]; simpl in *; [discriminate|].
  destruct (String.eqb (p_id p) k); [congruence | auto].
Qed.

(** C3: [runAutoMatchmaker] throws, before learning anything, exactly when
    the number of selected roster players is odd, always with the same
    message; with an even number it returns a result. *)
Theorem run_odd_count_throws (draws : nat -> nat * nat)
  (selectedPlayerIds : list string) (allPlayers : list Player)
  (allMatches : list Match) :
  let n := List.length (selectedPlayers selectedPlayerIds allPlayers) in
  ((exists msg, runAutoMatchmaker draws selectedPlayerIds allPlayers allMatches
                = Throw msg) <-> Nat.odd n = true)
  /\ (forall msg, runAutoMatchmaker draws selectedPlayerIds allPlayers allMatches
                  = Throw msg -> msg = odd_count_message)
  /\ (Nat.even n = true ->
      exists r, runAutoMatchmaker draws selectedPlayerIds allPlayers allMatches
                = Return r).
Proof.
  intros n. unfold runAutoMatchmaker. fold n.
  rewrite <- Nat.negb_even, even_mod2.
  destruct (Nat.eqb (Nat.modulo n 2) 0); simpl.
  - destruct (recent_sets allMatches) as [rp rm].
    split; [split; [intros [msg E]; discriminate | discriminate]|].
    split; [intros msg E; discriminate|]. intros _. eexists; reflexivity.
  - split; [split; [reflexivity | intros _; eexists; reflexivity]|].
    split; [intros msg E; injection E as <-; reflexivity | discriminate].
Qed.

(** C10: selected ids that name no roster player are dropped before the
    parity check: whenever the selected roster players are even in number
    the call returns, and its [players] are those roster players, in roster
    order, one form per player with that player's id. *)
Theorem run_drops_unknown_ids (draws : nat -> nat * nat)
  (selectedPlayerIds : list string) (allPlayers : list Player)
  (allMatches : list Match) :
  Nat.even (List.length (selectedPlayers selectedPlayerIds allPlayers)) = true ->
  exists r,
    runAutoMatchmaker draws selectedPlayerIds allPlayers allMatches = Return r
    /\ map pf_id (res_players r)
       = map p_id (selectedPlayers selectedPlayerIds allPlayers)
    /\ (forall p, In p (selectedPlayers selectedPlayerIds allPlayers)
                  <-> In p allPlayers /\ In (p_id p) selectedPlayerIds).
Proof.
  intros Hev. unfold runAutoMatchmaker.
  rewrite even_mod2 in Hev. rewrite Hev. simpl.
  destruct (recent_sets allMatches) as [rp rm].
  eexists. split; [reflexivity|]. simpl. split.
  - rewrite map_map. apply map_ext_in. intros p Hp.
    unfold selectedPlayers in Hp. apply filter_In in Hp as [Hp _].
    destruct (calculatePlayerForms_get allPlayers allMatches p Hp) as [f [E Hid]].
    unfold form_of. rewrite E. exact Hid.
  - intros p. unfold selectedPlayers. rewrite filter_In, existsb_exists.
    split.
    + intros [Hp [x [Hx Eq]]]. apply String.eqb_eq in Eq. subst x. auto.
    + intros [Hp Hin]. split; [exact Hp|].
      exists (p_id p). split; [exact Hin | apply String.eqb_refl].
Qed.

(** C10 on the selection [A; B; X] of odd length against the roster
    [A; B]: the unknown id [X] is dropped and the call returns [A] and [B]. *)
Lemma run_drops_unknown_ids_witness :
  let roster := [mkPlayer "A" None (Some 4); mkPlayer "B" None (Some 3)] in
  List.length ["A"; "B"; "X"] = 3%nat
  /\ exists r,
       runAutoMatchmaker (fun _ => (0%nat, 0%nat)) ["A"; "B"; "X"] roster []
       = Return r
       /\ map pf_id (res_players r) = ["A"; "B"].
Proof.
  intros roster. split; [reflexivity|].
  destruct (run_drops_unknown_ids (fun _ => (0%nat, 0%nat)) ["A"; "B"; "X"]
              roster [] eq_refl) as [r [E [Hids _]]].
  exists r. split; [exact E|]. rewrite Hids. reflexivity.
Defined.

(** ** The support bonus of [predictMatchOutcome] *)

(** C1: singles [A] (rated 7) against doubles [B, C] (rated 3 and 2).  The
    gap is 2, so the base points are 4, and the weaker team 2 holds [C] below
    the support cutoff.  The rule of the scheduler and of the fixed-team
    query gives 5 points on these two teams, but [hasWeakLink] checks the
    second slot only when team 1 has two ids, so the predictor gives 4. *)
Theorem predict_singles_vs_doubles_no_support_bonus :
  let roster := [mkPlayer "A" None (Some 7); mkPlayer "B" None (Some 3);
                 mkPlayer "C" None (Some 2)] in
  exists m h,
    predictMatchOutcome ["A"] ["B"; "C"] roster [] = Some m
    /\ strength (team1 m) = 7 /\ strength (team2 m) = 5
    /\ step_points (Rabs (strength (team1 m) - strength (team2 m))) = 4%nat
    /\ pf_effectiveRating (player1 (team2 m)) = 3
    /\ pf_effectiveRating (player2 (team2 m)) = 2
    /\ pf_effectiveRating (player2 (team2 m)) < SUPPORT_CUTOFF
    /\ handicap m = Some h /\ h_team h = 2%nat /\ h_points h = 4%nat
    /\ option_map h_points (pair_handicap reason_predict (team1 m) (team2 m))
       = Some 5%nat.
Proof.
  intros roster.
  set (pa := mkPlayer "A" None (Some 7)).
  set (pb := mkPlayer "B" None (Some 3)).
  set (pc := mkPlayer "C" None (Some 2)).
  assert (Hforms : calculatePlayerForms roster [] =
    [("A", finalize (init_form pa)); ("B", finalize (init_form pb));
     ("C", finalize (init_form pc))]) by reflexivity.
  pose proof (no_history_effective "A" 7 ltac:(lia)) as Ha. fold pa in Ha.
  pose proof (no_history_effective "B" 3 ltac:(lia)) as Hb. fold pb in Hb.
  pose proof (no_history_effective "C" 2 ltac:(lia)) as Hc. fold pc in Hc.
  unfold predictMatchOutcome. rewrite Hforms.
  remember (finalize (init_form pa)) as fa eqn:Ea.
  remember (finalize (init_form pb)) as fb eqn:Eb.
  remember (finalize (init_form pc)) as fc eqn:Ec.
  simpl. rewrite Ha, Hb, Hc.
  assert (Hd : Rabs (7 + 0 - (3 + 2)) = 2) by (rewrite Rabs_pos_eq; lra).
  assert (Hs : step_points 2 = 4%nat) by (apply step_points_spec; lra).
  unfold Rltb. rewrite Hd, Hs.
  destruct (Rlt_dec (7 + 0) (3 + 2)) as [Hlt|_]; [lra|].
  destruct (Rlt_dec 3 SUPPORT_CUTOFF) as [Hlt|_];
    [unfold SUPPORT_CUTOFF in Hlt; lra|].
  simpl. do 2 eexists. split; [reflexivity|]. simpl.
  unfold pair_handicap, Rltb; simpl. rewrite Ha, Hb, Hc, Hd, Hs.
  destruct (Rlt_dec (7 + 0) (3 + 2)) as [Hlt|_]; [lra|].
  destruct (Rlt_dec 3 SUPPORT_CUTOFF) as [Hlt|_];
    [unfold SUPPORT_CUTOFF in Hlt; lra|].
  destruct (Rlt_dec 2 SUPPORT_CUTOFF) as [_|Hge];
    [|unfold SUPPORT_CUTOFF in Hge; lra].
  unfold SUPPORT_CUTOFF. repeat split; try reflexivity; try lra.
  unfold predict_team; simpl. rewrite Hb, Hc. rdec. reflexivity.
Qed.

(** * Further properties of the engine *)

(** ** Real-number helpers *)

Lemma Rltb_true x y : x < y -> Rltb x y = true.
Proof. intros H. unfold Rltb. destruct (Rlt_dec x y); [reflexivity | lra]. Qed.

Lemma Rltb_false x y : y <= x -> Rltb x y = false.
Proof. intros H. unfold Rltb. destruct (Rlt_dec x y); [lra | reflexivity]. Qed.

Lemma Rpower10_pos y : 0 < Rpower 10 y.
Proof. unfold Rpower. apply exp_pos. Qed.

(** ** Pairing cost *)

Lemma sorted_key_pair_comm a b : sorted_key [a; b] = sorted_key [b; a].
Proof.
  unfold sorted_key, sort_by; simpl. unfold String.ltb.
  rewrite (String.compare_antisym b a).
  destruct (String.compare a b) eqn:E; simpl; try reflexivity.
  apply String.compare_eq_iff in E. subst. reflexivity.
Qed.

(** [getPairingCost] does not depend on the order of the two players: the
    pair key is sorted, and the gap and the support test are symmetric. *)
Theorem getPairingCost_symmetric (p1 p2 : PlayerForm)
  (syn : list (string * R)) (recentPairs : list string) :
  getPairKey (pf_id p1) (pf_id p2) = getPairKey (pf_id p2) (pf_id p1)
  /\ getPairingCost p1 p2 syn recentPairs = getPairingCost p2 p1 syn recentPairs.
Proof.
  split; [apply sorted_key_pair_comm|].
  unfold getPairingCost; cbv zeta.
  rewrite (sorted_key_pair_comm (pf_id p1) (pf_id p2)).
  rewrite (Rabs_minus_sym (pf_effectiveRating p1) (pf_effectiveRating p2)).
  rewrite (andb_comm (Rltb (pf_effectiveRating p1) SUPPORT_CUTOFF)).
  reflexivity.
Qed.

(** [getPairingCost] is never negative; two support players cost at least
    [10], and a pair from the recent pairs at least [15]. *)
Theorem getPairingCost_bounds (p1 p2 : PlayerForm) (syn : list (string * R))
  (recentPairs : list string) :
  0 <= getPairingCost p1 p2 syn recentPairs
  /\ (pf_effectiveRating p1 < SUPPORT_CUTOFF ->
      pf_effectiveRating p2 < SUPPORT_CUTOFF ->
      10 <= getPairingCost p1 p2 syn recentPairs)
  /\ (set_has (getPairKey (pf_id p1) (pf_id p2)) recentPairs = true ->
      15 <= getPairingCost p1 p2 syn recentPairs).
Proof.
  unfold getPairingCost, getPairKey; cbv zeta.
  set (d := Rabs (pf_effectiveRating p1 - pf_effectiveRating p2)).
  set (s := synergy_lookup syn (sorted_key [pf_id p1; pf_id p2])).
  assert (H0 : 0 <= 1 * (d - TARGET_DIFF) ^ 2)
    by (rewrite Rmult_1_l; apply pow2_ge_0).
  assert (Hs : 0 <= Rabs s * 2) by (pose proof (Rabs_pos s); lra).
  split; [|split].
  - destruct (Rltb d (6 / 10)), (Rltb 2 d),
      (Rltb (pf_effectiveRating p1) SUPPORT_CUTOFF && Rltb (pf_effectiveRating p2) SUPPORT_CUTOFF),
      (Rltb (35 / 100) (Rabs s)), (set_has _ recentPairs); lra.
  - intros H1 H2. rewrite (Rltb_true _ _ H1), (Rltb_true _ _ H2). simpl.
    destruct (Rltb d (6 / 10)), (Rltb 2 d), (Rltb (35 / 100) (Rabs s)),
      (set_has _ recentPairs); lra.
  - intros H. rewrite H.
    destruct (Rltb d (6 / 10)), (Rltb 2 d),
      (Rltb (pf_effectiveRating p1) SUPPORT_CUTOFF && Rltb (pf_effectiveRating p2) SUPPORT_CUTOFF),
      (Rltb (35 / 100) (Rabs s)); lra.
Qed.

(** ** Synergy values *)

Lemma synergy_entry (ms : list Match) (k : string) (v : R) :
  map_get k (calculateSynergyMatrix ms) = Some v ->
  exists s, map_get k (pair_stats ms) = Some s /\ v = synergy_of s
            /\ (1 <= games s)%nat.
Proof.
  destruct (pair_stats_inv ms) as [Hnd Hg].
  unfold calculateSynergyMatrix. rewrite fold_set_get by exact Hnd.
  destruct (map_get k (pair_stats ms)) as [s|] eqn:E; intros H; [|discriminate].
  injection H as <-. exists s. split; [reflexivity|]. split; [reflexivity|].
  exact (Hg k s E).
Qed.

(** The clamp [Math.max(0.01, Math.min(0.99, p))] keeps [p] on its side of
    [1/2]. *)
Lemma clamp_range (p : R) :
  let q := Rmax (1 / 100) (Rmin (99 / 100) p) in
  1 / 100 <= q <= 99 / 100
  /\ (1 / 2 < q <-> 1 / 2 < p) /\ (q = 1 / 2 <-> p = 1 / 2).
Proof.
  intros q. unfold q, Rmax, Rmin.
  destruct (Rle_dec (99 / 100) p); destruct (Rle_dec (1 / 100) _).
  all: repeat split; intros; lra.
Qed.

(** The log-odds [ln(q / (1 - q))] of a clamped rate. *)
Lemma log_odds_sign (q : R) :
  1 / 100 <= q <= 99 / 100 ->
  (0 < ln (q / (1 - q)) <-> 1 / 2 < q)
  /\ (ln (q / (1 - q)) = 0 <-> q = 1 / 2)
  /\ Rabs (ln (q / (1 - q))) <= ln 99.
Proof.
  intros Hq.
  assert (Hpos : 0 < q / (1 - q)) by (apply Rdiv_lt_0_compat; lra).
  assert (Hgt : 1 < q / (1 - q) <-> 1 / 2 < q).
  { split; intros H.
    - apply Rmult_lt_compat_r with (r := 1 - q) in H; [|lra].
      unfold Rdiv in H. rewrite Rmult_assoc, Rinv_l, Rmult_1_r in H; lra.
    - apply Rmult_lt_reg_r with (r := 1 - q); [lra|].
      unfold Rdiv. rewrite Rmult_assoc, Rinv_l, Rmult_1_r; lra. }
  assert (Heq : q / (1 - q) = 1 <-> q = 1 / 2).
  { split; intros H.
    - assert (E : q = q / (1 - q) * (1 - q)) by (field; lra).
      rewrite H in E. lra.
    - subst q. field. }
  assert (Hup : q / (1 - q) <= 99).
  { apply Rmult_le_reg_r with (r := 1 - q); [lra|].
    unfold Rdiv. rewrite Rmult_assoc, Rinv_l, Rmult_1_r; lra. }
  assert (Hlo : / 99 <= q / (1 - q)).
  { apply Rmult_le_reg_r with (r := 99 * (1 - q)); [lra|].
    unfold Rdiv. field_simplify; lra. }
  assert (Hln1 : ln 1 = 0) by apply ln_1.
  split; [|split].
  - split; intros H.
    + apply Hgt. apply ln_lt_inv; [lra | exact Hpos | lra].
    + rewrite <- Hln1. apply ln_increasing; [lra | apply Hgt, H].
  - split; intros H.
    + apply Heq. apply ln_inv; [exact Hpos | lra | lra].
    + rewrite (proj2 Heq H). exact Hln1.
  - assert (L1 : ln (q / (1 - q)) <= ln 99).
    { destruct (Req_dec (q / (1 - q)) 99) as [E|E]; [rewrite E; lra|].
      left. apply ln_increasing; [exact Hpos | lra]. }
    assert (L2 : ln (/ 99) <= ln (q / (1 - q))).
    { destruct (Req_dec (/ 99) (q / (1 - q))) as [E|E]; [rewrite E; lra|].
      left. apply ln_increasing; [apply Rinv_0_lt_compat; lra | lra]. }
    rewrite ln_Rinv in L2 by lra.
    apply Rabs_le. lra.
Qed.

Lemma smoothed_rate_side (g w : nat) :
  let p := (INR w + 2) / (INR g + 4) in
  (1 / 2 < p <-> (g < 2 * w)%nat) /\ (p = 1 / 2 <-> g = (2 * w)%nat).
Proof.
  intros p.
  assert (Hg : 0 <= INR g) by apply pos_INR.
  assert (Hp : p - 1 / 2 = (2 * INR w - INR g) / (2 * (INR g + 4)))
    by (unfold p; field; lra).
  assert (Hd : 0 < 2 * (INR g + 4)) by lra.
  assert (Hc : forall a, (0 < a / (2 * (INR g + 4)) <-> 0 < a)
                         /\ (a / (2 * (INR g + 4)) = 0 <-> a = 0)).
  { intros a. split; split; intros H.
    - apply Rmult_lt_reg_r with (r := / (2 * (INR g + 4))).
      + apply Rinv_0_lt_compat; exact Hd.
      + rewrite Rmult_0_l. exact H.
    - apply Rdiv_lt_0_compat; assumption.
    - unfold Rdiv in H. apply Rmult_integral in H as [H|H]; [exact H|].
      exfalso. apply (Rinv_neq_0_compat (2 * (INR g + 4))); [lra | exact H].
    - rewrite H. unfold Rdiv. apply Rmult_0_l. }
  assert (E2 : INR (2 * w) = 2 * INR w) by (rewrite mult_INR; reflexivity).
  split; split; intros H.
  - apply INR_lt. rewrite E2.
    assert (0 < 2 * INR w - INR g) by (apply (proj1 (proj1 (Hc _))); lra). lra.
  - apply lt_INR in H. rewrite E2 in H.
    assert (0 < (2 * INR w - INR g) / (2 * (INR g + 4)))
      by (apply (proj2 (proj1 (Hc _))); lra). lra.
  - apply INR_eq. rewrite E2.
    assert (2 * INR w - INR g = 0) by (apply (proj1 (proj2 (Hc _))); lra). lra.
  - apply (f_equal INR) in H. rewrite E2 in H.
    assert (Z0 : (2 * INR w - INR g) / (2 * (INR g + 4)) = 0)
      by (apply (proj2 (proj2 (Hc _))); lra). lra.
Qed.

(** A synergy value is positive exactly when the pair won more than half
    of its recorded games, zero exactly when it won half, and negative
    exactly when it won fewer than half. *)
Theorem synergy_sign (ms : list Match) (k : string) (v : R) :
  map_get k (calculateSynergyMatrix ms) = Some v ->
  exists s, map_get k (pair_stats ms) = Some s
    /\ (0 < v <-> (games s < 2 * wins s)%nat)
    /\ (v = 0 <-> games s = (2 * wins s)%nat)
    /\ (v < 0 <-> (2 * wins s < games s)%nat).
Proof.
  intros H. destruct (synergy_entry ms k v H) as [s [Hs [-> Hg]]].
  exists s. split; [exact Hs|].
  unfold synergy_of.
  set (p := (INR (wins s) + 2) / (INR (games s) + 4)).
  destruct (clamp_range p) as [Hq [Hq1 Hq2]].
  set (q := Rmax (1 / 100) (Rmin (99 / 100) p)) in *.
  destruct (log_odds_sign q Hq) as [L1 [L2 _]].
  destruct (smoothed_rate_side (games s) (wins s)) as [S1 S2]. fold p in S1, S2.
  set (l := ln (q / (1 - q))) in *.
  assert (Hg1 : 1 <= INR (games s)) by (apply (le_INR 1); exact Hg).
  set (f := INR (games s) / (INR (games s) + 6)).
  assert (Hf : 0 < f) by (unfold f; apply Rdiv_lt_0_compat; lra).
  assert (Tri : forall a b : nat, (a < b \/ a = b \/ b < a)%nat) by (intros; lia).
  split; [|split].
  - split; intros H1.
    + apply S1, Hq1, L1. destruct (Rlt_dec 0 l) as [P|P]; [exact P|].
      assert (l * f <= 0) by nra. lra.
    + assert (0 < l) by (apply L1, Hq1, S1, H1). nra.
  - split; intros H1.
    + apply S2, Hq2, L2. apply Rmult_integral in H1 as [H1|H1]; [exact H1|lra].
    + assert (l = 0) by (apply L2, Hq2, S2, H1). rewrite H0. lra.
  - split; intros H1.
    + destruct (Tri (2 * wins s)%nat (games s)) as [T|[T|T]]; [exact T| |].
      * assert (l = 0) by (apply L2, Hq2, S2; lia). rewrite H0 in H1. lra.
      * assert (0 < l) by (apply L1, Hq1, S1; lia). nra.
    + destruct (Rlt_dec l 0) as [N|N]; [nra|].
      destruct (Req_dec l 0) as [Z|Z].
      * apply L2, Hq2, S2 in Z. lia.
      * assert (0 < l) by lra. apply L1, Hq1, S1 in H0. lia.
Qed.

(** Every synergy value lies strictly between [-ln 99] and [ln 99]: the
    clamp bounds the log-odds and the shrink factor
    [games / (games + 6)] is below [1]. *)
Theorem synergy_bounded (ms : list Match) (k : string) (v : R) :
  map_get k (calculateSynergyMatrix ms) = Some v -> Rabs v < ln 99.
Proof.
  intros H. destruct (synergy_entry ms k v H) as [s [_ [-> Hg]]].
  unfold synergy_of.
  set (p := (INR (wins s) + 2) / (INR (games s) + 4)).
  destruct (clamp_range p) as [Hq _].
  set (q := Rmax (1 / 100) (Rmin (99 / 100) p)) in *.
  destruct (log_odds_sign q Hq) as [_ [_ Hb]].
  assert (Hg1 : 1 <= INR (games s)) by (apply (le_INR 1); exact Hg).
  assert (Hf0 : 0 < INR (games s) / (INR (games s) + 6))
    by (apply Rdiv_lt_0_compat; lra).
  assert (Hf1 : INR (games s) / (INR (games s) + 6) < 1).
  { apply Rmult_lt_reg_r with (r := INR (games s) + 6); [lra|].
    unfold Rdiv. rewrite Rmult_assoc, Rinv_l, Rmult_1_r; lra. }
  assert (Hl : 0 < ln 99) by (rewrite <- ln_1; apply ln_increasing; lra).
  rewrite Rabs_mult, (Rabs_pos_eq (INR (games s) / _)) by lra.
  pose proof (Rabs_pos (ln (q / (1 - q)))). nra.
Qed.

(** ** Form Learner *)

(** [Number(x.toFixed(2))] is within [0.005] of [x]. *)
Lemma round2_close (x : R) : Rabs (round2 x - x) <= 1 / 200.
Proof.
  unfold round2, Rltb, floorZ. destruct (Rlt_dec x 0) as [Hn|Hp].
  - destruct (archimed (- x * 100 + / 2)) as [A B].
    rewrite minus_IZR. simpl (IZR 1). apply Rabs_le. split; lra.
  - destruct (archimed (x * 100 + / 2)) as [A B].
    rewrite minus_IZR. simpl (IZR 1). apply Rabs_le. split; lra.
Qed.

Lemma map_get_finalize (k : string) (st : list (string * PlayerForm)) :
  map_get k (map (fun '(k0, pf) => (k0, finalize pf)) st)
  = option_map finalize (map_get k st).
Proof.
  induction st as [|[k1 pf] t IH]; simpl; [reflexivity|].
  destruct (String.eqb k k1); [reflexivity | exact IH].
Qed.

(** Every learned effective rating is the base rating plus the form,
    rounded to two decimals: it is off by at most [0.005]. *)
Theorem effectiveRating_rounding (players : list Player) (ms : list Match)
  (k : string) (f : PlayerForm) :
  map_get k (calculatePlayerForms players ms) = Some f ->
  Rabs (pf_effectiveRating f - (pf_baseRating f + pf_form f)) <= 1 / 200.
Proof.
  unfold calculatePlayerForms. rewrite map_get_finalize.
  destruct (map_get k _) as [pf|]; simpl; intros H; [|discriminate].
  injection H as <-. simpl. apply round2_close.
Qed.

(** The expected score of the Form Learner lies strictly between [0] and
    [1]; the expectations of the two sides add up to [1]; equal teams
    expect [1/2], and the stronger team more than [1/2]. *)
Theorem expectedT1_spec (effT1 effT2 : R) :
  0 < expectedT1 effT1 effT2 < 1
  /\ expectedT1 effT1 effT2 + expectedT1 effT2 effT1 = 1
  /\ expectedT1 effT1 effT1 = 1 / 2
  /\ (effT2 < effT1 -> 1 / 2 < expectedT1 effT1 effT2).
Proof.
  unfold expectedT1, D_FACTOR.
  set (r := Rpower 10 ((effT2 - effT1) / (12 / 10))).
  assert (Hr : 0 < r) by apply Rpower10_pos.
  assert (Hinv : Rpower 10 ((effT1 - effT2) / (12 / 10)) = / r).
  { unfold r. rewrite <- Rpower_Ropp. f_equal. field. }
  split; [|split; [|split]].
  - split.
    + apply Rdiv_lt_0_compat; lra.
    + apply Rmult_lt_reg_r with (r := 1 + r); [lra|].
      unfold Rdiv. rewrite Rmult_assoc, Rinv_l, Rmult_1_r; lra.
  - rewrite Hinv. field. lra.
  - replace ((effT1 - effT1) / (12 / 10)) with 0 by field.
    rewrite Rpower_O by lra. field.
  - intros H.
    assert (Hl : 0 < ln 10) by (rewrite <- ln_1; apply ln_increasing; lra).
    assert (Hr1 : r < 1).
    { unfold r, Rpower. rewrite <- exp_0. apply exp_increasing.
      assert (0 < (effT1 - effT2) / (12 / 10))
        by (apply Rdiv_lt_0_compat; lra).
      replace ((effT2 - effT1) / (12 / 10)) with (- ((effT1 - effT2) / (12 / 10)))
        by field.
      nra. }
    apply Rmult_lt_reg_r with (r := 2 * (1 + r)); [lra|].
    field_simplify; lra.
Qed.

(** The per-player share of a replayed match: positive and below [0.09]
    when team 1 won, negative and above [-0.09] otherwise. *)
Lemma form_share_range (m : Match) (f1 f2 f3 f4 : PlayerForm) :
  (m_winner m = 1%nat -> 0 < form_share m f1 f2 f3 f4 < 9 / 100)
  /\ (m_winner m <> 1%nat -> - (9 / 100) < form_share m f1 f2 f3 f4 < 0).
Proof.
  unfold form_share, actualS, K_FACTOR, expectedT1, D_FACTOR.
  set (r := Rpower 10 _).
  assert (Hr : 0 < r) by apply Rpower10_pos.
  assert (He0 : 0 < 1 / (1 + r)) by (apply Rdiv_lt_0_compat; lra).
  assert (He1 : 1 / (1 + r) < 1).
  { apply Rmult_lt_reg_r with (r := 1 + r); [lra|].
    unfold Rdiv. rewrite Rmult_assoc, Rinv_l, Rmult_1_r; lra. }
  split; intros H.
  - rewrite (proj2 (Nat.eqb_eq _ _) H). split; lra.
  - rewrite (proj2 (Nat.eqb_neq _ _) H). split; lra.
Qed.

Lemma upd_form_get (k k' : string) (f : R -> R) st :
  map_get k (upd_form k' f st)
  = if String.eqb k k'
    then option_map (fun pf => with_form pf (f (pf_form pf))) (map_get k st)
    else map_get k st.
Proof.
  induction st as [|[k1 pf] t IH]; simpl.
  - destruct (String.eqb k k'); reflexivity.
  - destruct (String.eqb_spec k' k1) as [->|Hne]; simpl.
    + destruct (String.eqb_spec k k1); reflexivity.
    + rewrite IH. destruct (String.eqb_spec k k1) as [->|]; [|reflexivity].
      destruct (String.eqb_spec k1 k'); [congruence | reflexivity].
Qed.

(** In a replayed match between four distinct players, each member of the
    winning team gains the same share, below [0.09], and each member of the
    losing team loses it. *)
Theorem form_step_winner_gains (st : list (string * PlayerForm)) (m : Match)
  (a b c d : string) (f1 f2 f3 f4 : PlayerForm) :
  m_team1 m = [a; b] -> m_team2 m = [c; d] -> NoDup [a; b; c; d] ->
  map_get a st = Some f1 -> map_get b st = Some f2 ->
  map_get c st = Some f3 -> map_get d st = Some f4 ->
  exists share,
    (m_winner m = 1%nat -> 0 < share < 9 / 100)
    /\ (m_winner m <> 1%nat -> - (9 / 100) < share < 0)
    /\ map_get a (form_step st m) = Some (with_form f1 (pf_form f1 + share))
    /\ map_get b (form_step st m) = Some (with_form f2 (pf_form f2 + share))
    /\ map_get c (form_step st m) = Some (with_form f3 (pf_form f3 - share))
    /\ map_get d (form_step st m) = Some (with_form f4 (pf_form f4 - share)).
Proof.
  intros H1 H2 Hnd Ha Hb Hc Hd.
  exists (form_share m f1 f2 f3 f4).
  destruct (form_share_range m f1 f2 f3 f4) as [R1 R2].
  split; [exact R1|]. split; [exact R2|].
  assert (Hs : form_step st m =
    upd_form d (fun x => x - form_share m f1 f2 f3 f4)
      (upd_form c (fun x => x - form_share m f1 f2 f3 f4)
        (upd_form b (fun x => x + form_share m f1 f2 f3 f4)
          (upd_form a (fun x => x + form_share m f1 f2 f3 f4) st)))).
  { unfold form_step. rewrite H1, H2, Ha, Hb, Hc, Hd. reflexivity. }
  rewrite Hs. clear Hs.
  apply NoDup_cons_iff in Hnd as [Na Hnd].
  apply NoDup_cons_iff in Hnd as [Nb Hnd].
  apply NoDup_cons_iff in Hnd as [Nc _].
  simpl in Na, Nb, Nc.
  assert (Eab : String.eqb a b = false) by (apply String.eqb_neq; intro; subst; tauto).
  assert (Eac : String.eqb a c = false) by (apply String.eqb_neq; intro; subst; tauto).
  assert (Ead : String.eqb a d = false) by (apply String.eqb_neq; intro; subst; tauto).
  assert (Ebc : String.eqb b c = false) by (apply String.eqb_neq; intro; subst; tauto).
  assert (Ebd : String.eqb b d = false) by (apply String.eqb_neq; intro; subst; tauto).
  assert (Ecd : String.eqb c d = false) by (apply String.eqb_neq; intro; subst; tauto).
  assert (Eba : String.eqb b a = false) by (rewrite String.eqb_sym; exact Eab).
  assert (Eca : String.eqb c a = false) by (rewrite String.eqb_sym; exact Eac).
  assert (Eda : String.eqb d a = false) by (rewrite String.eqb_sym; exact Ead).
  assert (Ecb : String.eqb c b = false) by (rewrite String.eqb_sym; exact Ebc).
  assert (Edb : String.eqb d b = false) by (rewrite String.eqb_sym; exact Ebd).
  assert (Edc : String.eqb d c = false) by (rewrite String.eqb_sym; exact Ecd).
  rewrite !upd_form_get, !String.eqb_refl.
  rewrite Eab, Eac, Ead, Ebc, Ebd, Ecd, Eba, Eca, Eda, Ecb, Edb, Edc.
  rewrite Ha, Hb, Hc, Hd. simpl.
  repeat split; reflexivity.
Qed.

Lemma form_step_other (st : list (string * PlayerForm)) (m : Match) (k : string) :
  ~ In k (m_team1 m ++ m_team2 m) -> map_get k (form_step st m) = map_get k st.
Proof.
  intros Hk. unfold form_step.
  destruct (m_team1 m) as [|a [|b [|]]]; destruct (m_team2 m) as [|c [|d [|]]];
    try reflexivity.
  destruct (map_get a st), (map_get b st), (map_get c st), (map_get d st);
    try reflexivity.
  simpl in Hk. rewrite !upd_form_get.
  destruct (String.eqb_spec k d); [subst; tauto|].
  destruct (String.eqb_spec k c); [subst; tauto|].
  destruct (String.eqb_spec k b); [subst; tauto|].
  destruct (String.eqb_spec k a); [subst; tauto|].
  reflexivity.
Qed.


Lemma init_stats_zero_form (players : list Player) :
  Forall (fun '(_, pf) => pf_form pf = 0) (init_stats players).
Proof.
  unfold init_stats.
  assert (H : forall acc : list (string * PlayerForm),
    Forall (fun '(_, pf) => pf_form pf = 0) acc ->
    Forall (fun '(_, pf) => pf_form pf = 0)
      (fold_left (fun st p => map_set (p_id p) (init_form p) st) players acc)).
  { induction players as [|p t IH]; simpl; intros acc Hacc; [exact Hacc|].
    apply IH. clear IH. induction acc as [|[k1 v1] t' IH']; simpl.
    - constructor; [reflexivity | constructor].
    - apply Forall_cons_iff in Hacc as [Hh Ht].
      destruct (String.eqb (p_id p) k1); constructor; auto. }
  apply H. constructor.
Qed.

Lemma replay_other (st : list (string * PlayerForm)) (ms : list Match) (k : string) :
  (forall m, In m ms -> ~ In k (m_team1 m ++ m_team2 m)) ->
  map_get k (replay st ms) = map_get k st.
Proof.
  unfold replay. revert st; induction ms as [|m t IH]; simpl; intros st H;
    [reflexivity|].
  rewrite IH by auto. apply form_step_other. auto.
Qed.

(** A player who played in none of the matches keeps form [0]; the
    effective rating is the base rating rounded to two decimals. *)
Theorem unplayed_player_keeps_base (players : list Player) (ms : list Match)
  (k : string) (f : PlayerForm) :
  (forall m, In m ms -> ~ In k (m_team1 m ++ m_team2 m)) ->
  map_get k (calculatePlayerForms players ms) = Some f ->
  pf_form f = 0 /\ pf_effectiveRating f = round2 (pf_baseRating f).
Proof.
  intros Hk. unfold calculatePlayerForms. rewrite map_get_finalize.
  rewrite replay_other by (intros m Hm; apply Hk; eapply In_sort_by; exact Hm).
  destruct (map_get k (init_stats players)) as [pf|] eqn:E; simpl;
    intros H; [|discriminate].
  injection H as <-. simpl.
  assert (H0 : pf_form pf = 0)
    by exact (map_get_ids (fun _ pf => pf_form pf = 0) _ _ _
                (init_stats_zero_form players) E).
  rewrite H0, Rplus_0_r. split; reflexivity.
Qed.

Lemma forms_get_iff (players : list Player) (ms : list Match) (k : string) :
  map_get k (calculatePlayerForms players ms) <> None <-> In k (map p_id players).
Proof.
  split.
  - intros H. destruct (in_dec String.string_dec k (map p_id players)) as [I|N];
      [exact I|].
    exfalso. apply H. unfold calculatePlayerForms. rewrite map_get_finalize.
    rewrite replay_get_none by (apply init_stats_get_none; exact N).
    reflexivity.
  - intros H. apply in_map_iff in H as [p [<- Hp]].
    destruct (calculatePlayerForms_get players ms p Hp) as [f [E _]].
    congruence.
Qed.

(** The learned table has an entry for an id exactly when the roster has a
    player with that id, and the entry carries that id. *)
Theorem playerForms_domain (players : list Player) (ms : list Match) (k : string) :
  (map_get k (calculatePlayerForms players ms) <> None <-> In k (map p_id players))
  /\ (forall f, map_get k (calculatePlayerForms players ms) = Some f -> pf_id f = k).
Proof.
  split; [apply forms_get_iff|].
  intros f E.
  assert (Hin : In k (map p_id players))
    by (apply (proj1 (forms_get_iff players ms k)); congruence).
  apply in_map_iff in Hin as [p [<- Hp]].
  destruct (calculatePlayerForms_get players ms p Hp) as [f' [E' Hid]].
  congruence.
Qed.

(** ** Pairing: every player in exactly one pair *)

Lemma members_cons p l : members (p :: l) = player1 p :: player2 p :: members l.
Proof. reflexivity. Qed.

Lemma members_length l : List.length (members l) = (2 * List.length l)%nat.
Proof. induction l as [|p t IH]; simpl; [reflexivity|]. rewrite IH. lia. Qed.

Lemma best_partner_spec p1 rest used syn recentPairs :
  match best_partner p1 rest used syn recentPairs with
  | Some (p2, _) => In p2 rest /\ set_has (pf_id p2) used = false
  | None => forall x, In x rest -> set_has (pf_id x) used = true
  end.
Proof.
  unfold best_partner.
  assert (G : forall l acc,
    match fold_left
      (fun acc p2 =>
         if set_has (pf_id p2) used then acc
         else
           let c := getPairingCost p1 p2 syn recentPairs in
           match acc with
           | None => Some (p2, c)
           | Some (_, minCost) => if Rltb c minCost then Some (p2, c) else acc
           end) l acc with
    | Some (p2, c) =>
        acc = Some (p2, c) \/ (In p2 l /\ set_has (pf_id p2) used = false)
    | None => acc = None /\ forall x, In x l -> set_has (pf_id x) used = true
    end).
  { induction l as [|x t IH]; intros acc; simpl.
    - destruct acc as [[p2 c]|]; [left; reflexivity|]. split; [reflexivity|].
      intros x [].
    - destruct (set_has (pf_id x) used) eqn:Ex.
      + specialize (IH acc). destruct (fold_left _ t acc) as [[p2 c]|].
        * destruct IH as [IH|[IH1 IH2]]; [left; exact IH | right; auto].
        * destruct IH as [IH1 IH2]. split; [exact IH1|].
          intros y [<-|Hy]; auto.
      + cbv zeta.
        set (acc' := match acc with
                     | Some (_, minCost) =>
                         if Rltb (getPairingCost p1 x syn recentPairs) minCost
                         then Some (x, getPairingCost p1 x syn recentPairs) else acc
                     | None => Some (x, getPairingCost p1 x syn recentPairs)
                     end).
        assert (Hacc : acc' = Some (x, getPairingCost p1 x syn recentPairs)
                       \/ (acc' = acc /\ acc <> None)).
        { unfold acc'. destruct acc as [[q c]|]; [|left; reflexivity].
          destruct (Rltb _ c); [left | right; split; [|discriminate]]; reflexivity. }
        specialize (IH acc'). destruct (fold_left _ t acc') as [[p2 c]|].
        * destruct IH as [IH|[IH1 IH2]]; [|right; auto].
          destruct Hacc as [Hacc|[Hacc _]].
          -- rewrite IH in Hacc. injection Hacc as -> _. right; auto.
          -- left. congruence.
        * destruct IH as [IH1 _]. destruct Hacc as [Hacc|[Hacc Hn]]; congruence. }
  specialize (G rest None).
  destruct (fold_left _ rest None) as [[p2 c]|].
  - destruct G as [G|G]; [discriminate | exact G].
  - exact (proj2 G).
Qed.

Lemma set_has_cons2 k a b used :
  set_has k (a :: b :: used) = String.eqb k a || (String.eqb k b || set_has k used).
Proof. reflexivity. Qed.

Lemma unused_of_remove used p1 p2 rest :
  In p2 rest -> set_has (pf_id p2) used = false ->
  NoDup (map pf_id rest) -> ~ In (pf_id p1) (map pf_id rest) ->
  Permutation (unused_of used rest)
              (p2 :: unused_of (pf_id p2 :: pf_id p1 :: used) rest).
Proof.
  assert (Same : forall t, ~ In (pf_id p2) (map pf_id t) ->
                  ~ In (pf_id p1) (map pf_id t) ->
                  unused_of used t = unused_of (pf_id p2 :: pf_id p1 :: used) t).
  { induction t as [|y t IH]; simpl; intros N2 N1; [reflexivity|].
    destruct (String.eqb_spec (pf_id y) (pf_id p2)); [tauto|].
    destruct (String.eqb_spec (pf_id y) (pf_id p1)); [tauto|]. simpl.
    rewrite IH by tauto. reflexivity. }
  induction rest as [|x t IH]; simpl; intros Hin Hu Hnd Hn1; [destruct Hin|].
  inversion Hnd as [|? ? Nx Hnd']; subst.
  destruct Hin as [<-|Hin].
  - rewrite Hu. try rewrite set_has_cons2. rewrite String.eqb_refl. simpl.
    apply perm_skip. rewrite <- Same by tauto. reflexivity.
  - assert (Nx2 : pf_id x <> pf_id p2)
      by (intros E; apply Nx; rewrite E; apply in_map, Hin).
    assert (Nx1 : pf_id x <> pf_id p1) by (intros E; apply Hn1; left; exact E).
    try rewrite set_has_cons2.
    destruct (String.eqb_spec (pf_id x) (pf_id p2)); [contradiction|].
    destruct (String.eqb_spec (pf_id x) (pf_id p1)); [contradiction|]. simpl.
    destruct (set_has (pf_id x) used); simpl.
    + apply IH; tauto.
    + eapply perm_trans; [apply perm_skip, IH; tauto | apply perm_swap].
Qed.

Lemma greedy_loop_partition l used syn recentPairs :
  NoDup (map pf_id l) ->
  exists left, (List.length left <= 1)%nat
    /\ Permutation (members (greedy_loop l used syn recentPairs) ++ left)
                   (unused_of used l).
Proof.
  revert used; induction l as [|p1 rest IH]; intros used Hnd.
  { exists []. split; [simpl; lia | constructor]. }
  inversion Hnd as [|? ? N1 Hnd']; subst.
  simpl. unfold unused_of at 1; simpl; fold (unused_of used rest).
  destruct (set_has (pf_id p1) used) eqn:E1; simpl.
  - apply IH, Hnd'.
  - pose proof (best_partner_spec p1 rest used syn recentPairs) as Hb.
    destruct (best_partner p1 rest used syn recentPairs) as [[p2 c]|].
    + destruct Hb as [Hin Hu].
      destruct (IH (pf_id p2 :: pf_id p1 :: used) Hnd') as [left [Hl Hp]].
      exists left. split; [exact Hl|].
      rewrite members_cons. simpl. apply perm_skip.
      eapply perm_trans; [apply perm_skip, Hp|].
      apply Permutation_sym, unused_of_remove; assumption.
    + assert (Hnil : unused_of used rest = []).
      { unfold unused_of. clear -Hb. induction rest as [|x t IHr]; simpl;
          [reflexivity|].
        rewrite (Hb x (or_introl eq_refl)). simpl. apply IHr.
        intros y Hy. apply Hb. right; exact Hy. }
      destruct (IH used Hnd') as [left [Hl Hp]].
      rewrite Hnil in Hp. apply Permutation_sym in Hp. apply Permutation_nil in Hp.
      apply app_eq_nil in Hp as [Hm ->].
      exists [p1]. rewrite Hm, Hnil. split; [simpl; lia | reflexivity].
Qed.

Lemma members_list_set l i v :
  (i < List.length l)%nat ->
  Permutation (members (list_set l i v)
                 ++ [player1 (nth i l dummy_pair); player2 (nth i l dummy_pair)])
              (members l ++ [player1 v; player2 v]).
Proof.
  revert i; induction l as [|x t IH]; intros [|i] Hi; simpl in *; try lia.
  - fold (members t).
    apply perm_trans with (player1 v :: player2 v :: player1 x :: player2 x :: members t).
    + do 2 apply perm_skip. apply Permutation_app_comm.
    + apply perm_trans with (player1 x :: player2 x :: player1 v :: player2 v :: members t).
      * exact (Permutation_app_tail (members t)
                 (Permutation_app_comm [player1 v; player2 v] [player1 x; player2 x])).
      * do 2 apply perm_skip. apply Permutation_sym, Permutation_app_comm.
  - fold (members (list_set t i v)). fold (members t).
    do 2 apply perm_skip. apply IH. lia.
Qed.

Lemma swap_step_members syn recentPairs i j pairs cur :
  (i < List.length pairs)%nat -> (j < List.length pairs)%nat -> i <> j ->
  Permutation (members (fst (swap_step syn recentPairs (i, j) pairs cur)))
              (members pairs).
Proof.
  intros Hi Hj Hij. unfold swap_step.
  set (pA := nth i pairs dummy_pair). set (pB := nth j pairs dummy_pair).
  destruct (Rltb _ _); simpl; [|reflexivity].
  set (A' := make_pair (player1 pA) (player2 pB)
               (getPairingCost (player1 pA) (player2 pB) syn recentPairs)).
  set (B' := make_pair (player1 pB) (player2 pA)
               (getPairingCost (player1 pB) (player2 pA) syn recentPairs)).
  set (l1 := list_set pairs i A').
  assert (P1 : Permutation (members (list_set l1 j B') ++ [player1 pB; player2 pB])
                           (members l1 ++ [player1 B'; player2 B'])).
  { assert (E : nth j l1 dummy_pair = pB)
      by (unfold l1; rewrite nth_list_set_other by congruence; reflexivity).
    rewrite <- E. apply members_list_set. unfold l1. rewrite list_set_length. exact Hj. }
  assert (P2 : Permutation (members l1 ++ [player1 pA; player2 pA])
                           (members pairs ++ [player1 A'; player2 A']))
    by (apply members_list_set; exact Hi).
  apply Permutation_app_inv_r with
    (l := [player1 pB; player2 pB; player1 pA; player2 pA]).
  apply perm_trans with ((members l1 ++ [player1 B'; player2 B'; player1 pA; player2 pA])%list).
  { change [player1 pB; player2 pB; player1 pA; player2 pA]
      with (([player1 pB; player2 pB] ++ [player1 pA; player2 pA])%list).
    change [player1 B'; player2 B'; player1 pA; player2 pA]
      with (([player1 B'; player2 B'] ++ [player1 pA; player2 pA])%list).
    rewrite !app_assoc. apply Permutation_app_tail, P1. }
  apply perm_trans with ((members l1 ++ [player1 pA; player2 pA; player1 B'; player2 B'])%list).
  { apply Permutation_app_head.
    exact (Permutation_app_comm [player1 B'; player2 B'] [player1 pA; player2 pA]). }
  apply perm_trans with ((members pairs ++ [player1 A'; player2 A'; player1 B'; player2 B'])%list).
  { change [player1 pA; player2 pA; player1 B'; player2 B']
      with (([player1 pA; player2 pA] ++ [player1 B'; player2 B'])%list).
    change [player1 A'; player2 A'; player1 B'; player2 B']
      with (([player1 A'; player2 A'] ++ [player1 B'; player2 B'])%list).
    rewrite !app_assoc. apply Permutation_app_tail, P2. }
  apply Permutation_app_head. unfold A', B'; simpl.
  eapply perm_trans; [apply perm_swap|].
  eapply perm_trans; [apply perm_skip, perm_swap|].
  apply perm_swap.
Qed.

Lemma local_search_members draws syn recentPairs k n pairs cur :
  Permutation (members (local_search draws syn recentPairs k n pairs cur))
              (members pairs).
Proof.
  revert k pairs cur; induction n as [|n IH]; intros k pairs cur; [reflexivity|].
  cbn [local_search].
  destruct (Nat.ltb_spec (List.length pairs) 2) as [Hl|Hl]; [reflexivity|].
  pose proof (pick_indices_ok (List.length pairs) (draws k) Hl) as Hpk.
  destruct (pick_indices (List.length pairs) (draws k)) as [i j].
  destruct Hpk as [Hi [Hj Hij]]; simpl in Hi, Hj, Hij.
  pose proof (swap_step_members syn recentPairs i j pairs cur Hi Hj Hij) as Hp.
  remember (swap_step syn recentPairs (i, j) pairs cur) as sw eqn:Esw.
  destruct sw as [pairs' cur'].
  simpl in Hp. eapply perm_trans; [apply IH | exact Hp].
Qed.

Lemma split_parity (n g r : nat) :
  n = (2 * g + r)%nat -> (r <= 1)%nat ->
  r = Nat.modulo n 2 /\ g = Nat.div n 2.
Proof.
  intros -> Hr.
  replace (2 * g + r)%nat with (r + g * 2)%nat by lia.
  rewrite Nat.Div0.mod_add, Nat.div_add by lia.
  rewrite Nat.mod_small, Nat.div_small by lia. split; lia.
Qed.

Lemma optimal_pairs_partition draws pool syn recentPairs :
  NoDup (map pf_id pool) ->
  let pairs := generateOptimalPairs draws pool syn recentPairs in
  exists left, Permutation (members pairs ++ left) pool
    /\ List.length left = Nat.modulo (List.length pool) 2
    /\ List.length pairs = Nat.div (List.length pool) 2.
Proof.
  intros Hnd pairs.
  set (sorted := sort_by rating_asc pool).
  assert (Hperm : Permutation sorted pool) by apply sort_by_perm.
  assert (Hnd' : NoDup (map pf_id sorted))
    by (eapply Permutation_NoDup; [apply Permutation_map, Permutation_sym, Hperm | exact Hnd]).
  destruct (greedy_loop_partition sorted [] syn recentPairs Hnd') as [left [Hl Hp]].
  assert (Hu : forall l, unused_of [] l = l)
    by (induction l as [|x t IHl]; simpl; [|rewrite IHl]; reflexivity).
  rewrite Hu in Hp.
  set (g := greedy_loop sorted [] syn recentPairs) in *.
  assert (Hm : Permutation (members pairs) (members g))
    by (unfold pairs, generateOptimalPairs, greedy_seed; fold sorted; fold g;
        apply local_search_members).
  exists left. split.
  - eapply perm_trans; [apply Permutation_app_tail, Hm|].
    eapply perm_trans; [exact Hp | exact Hperm].
  - apply Permutation_length in Hm, Hp, Hperm.
    rewrite length_app, !members_length in *.
    destruct (split_parity (List.length pool) (List.length pairs) (List.length left))
      as [E1 E2]; [lia | exact Hl | split; assumption].
Qed.

(** With distinct player ids, the pairs of [generateOptimalPairs] use every
    player of the pool exactly once, save one player left out when the pool
    is odd; there are [floor(n / 2)] pairs, whatever the random draws of the
    local search. *)
Theorem generateOptimalPairs_partition (draws : nat -> nat * nat)
  (pool : list PlayerForm) (syn : list (string * R)) (recentPairs : list string) :
  NoDup (map pf_id pool) ->
  let pairs := generateOptimalPairs draws pool syn recentPairs in
  exists left, Permutation (members pairs ++ left) pool
    /\ List.length left = Nat.modulo (List.length pool) 2
    /\ List.length pairs = Nat.div (List.length pool) 2.
Proof. apply optimal_pairs_partition. Qed.

(** ** Scheduling: every team in at most one match *)

Lemma match_teams_cons m l : match_teams (m :: l) = team1 m :: team2 m :: match_teams l.
Proof. reflexivity. Qed.

Lemma match_teams_length l : List.length (match_teams l) = (2 * List.length l)%nat.
Proof. induction l as [|m t IH]; simpl; [reflexivity|]. rewrite IH. lia. Qed.

Lemma best_opponent_spec t1 l recentMatches i acc :
  match best_opponent t1 l recentMatches i acc with
  | Some (j, c) =>
      acc = Some (j, c)
      \/ ((i <= j < i + List.length l)%nat
          /\ c = opponent_cost t1 (nth (j - i) l dummy_pair) recentMatches)
  | None => acc = None /\ l = []
  end.
Proof.
  revert i acc; induction l as [|t2 l' IH]; intros i acc; simpl.
  - destruct acc as [[j c]|]; [left; reflexivity | split; reflexivity].
  - set (c := opponent_cost t1 t2 recentMatches).
    set (acc' := match acc with
                 | Some (_, minMatchCost) =>
                     if Rltb c minMatchCost then Some (i, c) else acc
                 | None => Some (i, c)
                 end).
    assert (Hacc : acc' = Some (i, c) \/ (acc' = acc /\ acc <> None)).
    { unfold acc'. destruct acc as [[q c0]|]; [|left; reflexivity].
      destruct (Rltb c c0); [left | right; split; [|discriminate]]; reflexivity. }
    specialize (IH (S i) acc'). destruct (best_opponent t1 l' recentMatches (S i) acc')
      as [[j c']|].
    + destruct IH as [IH|[IH1 IH2]].
      * destruct Hacc as [Hacc|[Hacc _]].
        -- rewrite IH in Hacc. injection Hacc as -> ->. right.
           rewrite Nat.sub_diag. split; [lia | reflexivity].
        -- left. congruence.
      * right. split; [lia|].
        replace (j - i)%nat with (S (j - S i)) by lia. exact IH2.
    + destruct IH as [IH _]. destruct Hacc as [Hacc|[Hacc Hn]]; congruence.
Qed.

Lemma best_opponent_found t1 t l recentMatches :
  exists j c, best_opponent t1 (t :: l) recentMatches 0 None = Some (j, c)
    /\ (j < S (List.length l))%nat
    /\ c = opponent_cost t1 (nth j (t :: l) dummy_pair) recentMatches.
Proof.
  pose proof (best_opponent_spec t1 (t :: l) recentMatches 0 None) as H.
  destruct (best_opponent t1 (t :: l) recentMatches 0 None) as [[j c]|].
  - destruct H as [H|[H1 H2]]; [discriminate|].
    exists j, c. rewrite Nat.sub_0_r in H2. simpl in H1.
    split; [reflexivity | split; [lia | exact H2]].
  - destruct H as [_ H]; discriminate.
Qed.

Lemma remove_nth_perm {A} (j : nat) (l : list A) (d : A) :
  (j < List.length l)%nat ->
  Permutation l (nth j l d :: remove_nth j l)
  /\ List.length (remove_nth j l) = pred (List.length l).
Proof.
  revert j; induction l as [|x t IH]; intros [|j] Hj; simpl in *; try lia.
  - split; reflexivity.
  - destruct (IH j ltac:(lia)) as [P L]. split.
    + eapply perm_trans; [apply perm_skip, P | apply perm_swap].
    + rewrite L. destruct t; simpl in *; lia.
Qed.

Lemma In_remove_nth {A} (j : nat) (l : list A) x : In x (remove_nth j l) -> In x l.
Proof.
  revert j; induction l as [|y t IH]; intros [|j]; simpl; try tauto.
  intros [H|H]; [left; exact H | right; exact (IH j H)].
Qed.

Lemma matchups_loop_partition fuel pool recentMatches :
  (List.length pool <= fuel)%nat ->
  exists left, (List.length left <= 1)%nat
    /\ Permutation (match_teams (matchups_loop fuel pool recentMatches) ++ left) pool.
Proof.
  revert pool; induction fuel as [|fuel IH]; intros pool Hf.
  { destruct pool; simpl in Hf; [|lia]. exists []. split; [simpl; lia | reflexivity]. }
  destruct pool as [|t1 [|t rest]].
  - exists []. split; [simpl; lia | reflexivity].
  - exists [t1]. split; [simpl; lia | reflexivity].
  - cbn [matchups_loop].
    destruct (best_opponent_found t1 t rest recentMatches) as [j [c [E [Hj _]]]].
    rewrite E.
    destruct (remove_nth_perm j (t :: rest) dummy_pair Hj) as [P L].
    destruct (IH (remove_nth j (t :: rest))) as [left [Hl Hp]].
    { rewrite L. simpl in *. lia. }
    exists left. split; [exact Hl|].
    rewrite match_teams_cons. simpl. apply perm_skip.
    eapply perm_trans; [apply perm_skip, Hp | apply Permutation_sym, P].
Qed.

Lemma matchups_partition teams recentMatches :
  let ms := generateMatchups teams recentMatches in
  exists left, Permutation (match_teams ms ++ left) teams
    /\ List.length left = Nat.modulo (List.length teams) 2
    /\ List.length ms = Nat.div (List.length teams) 2.
Proof.
  intros ms. unfold ms, generateMatchups.
  set (pool := sort_by strength_desc teams).
  assert (Hperm : Permutation pool teams) by apply sort_by_perm.
  destruct (matchups_loop_partition (List.length pool) pool recentMatches (le_n _))
    as [left [Hl Hp]].
  exists left. split; [eapply perm_trans; [exact Hp | exact Hperm]|].
  apply Permutation_length in Hp, Hperm.
  rewrite length_app, match_teams_length in Hp.
  apply split_parity; [lia | exact Hl].
Qed.

(** The Match Scheduler puts every team in at most one match: the teams of
    its proposals are the input teams, save one left out when their number
    is odd, and there are [floor(n / 2)] proposals. *)
Theorem generateMatchups_partition (teams : list GeneratedPair)
  (recentMatches : list string) :
  let ms := generateMatchups teams recentMatches in
  exists left, Permutation (match_teams ms ++ left) teams
    /\ List.length left = Nat.modulo (List.length teams) 2
    /\ List.length ms = Nat.div (List.length teams) 2.
Proof. apply matchups_partition. Qed.

(** ** Insertion sort orders by any consistent comparator *)

Lemma insert_by_sorted {A} (lt : A -> A -> bool) (le : A -> A -> Prop) :
  (forall x y, lt x y = true -> le x y) ->
  (forall x y, lt x y = false -> le y x) ->
  forall x l, Sorted le l -> Sorted le (insert_by lt x l).
Proof.
  intros Ht Hf x l; induction l as [|y ys IH]; simpl; intros Hs.
  - repeat constructor.
  - destruct (lt x y) eqn:E.
    + constructor; [exact Hs | constructor; apply Ht, E].
    + apply Sorted_inv in Hs as [Hs Hh]. constructor; [apply IH, Hs|].
      destruct ys as [|z zs]; simpl.
      * constructor. apply Hf, E.
      * destruct (lt x z); constructor; [apply Hf, E|].
        inversion Hh; assumption.
Qed.

Lemma sort_by_sorted {A} (lt : A -> A -> bool) (le : A -> A -> Prop) :
  (forall x y, lt x y = true -> le x y) ->
  (forall x y, lt x y = false -> le y x) ->
  (forall x y z, le x y -> le y z -> le x z) ->
  forall l, StronglySorted le (sort_by lt l).
Proof.
  intros Ht Hf Htr l. apply Sorted_StronglySorted; [exact Htr|].
  unfold sort_by. assert (H0 : Sorted le (@nil A)) by constructor.
  revert H0. generalize (@nil A).
  induction l as [|x t IH]; simpl; intros acc Hacc; [exact Hacc|].
  apply IH, insert_by_sorted; assumption.
Qed.

Lemma StronglySorted_remove_nth {A} (le : A -> A -> Prop) j l :
  StronglySorted le l -> StronglySorted le (remove_nth j l).
Proof.
  revert j; induction l as [|x t IH]; intros [|j] H; simpl; auto.
  - inversion H; assumption.
  - apply StronglySorted_inv in H as [H1 H2]. constructor; [apply IH, H1|].
    apply Forall_forall. intros y Hy. apply In_remove_nth in Hy.
    exact (proj1 (Forall_forall _ _) H2 y Hy).
Qed.

Lemma StronglySorted_firstn {A} (le : A -> A -> Prop) n l :
  StronglySorted le l -> StronglySorted le (firstn n l).
Proof.
  revert n; induction l as [|x t IH]; intros [|n] H; simpl; try solve [constructor].
  apply StronglySorted_inv in H as [H1 H2]. constructor; [apply IH, H1|].
  apply Forall_forall. intros y Hy. apply In_firstn in Hy.
  exact (proj1 (Forall_forall _ _) H2 y Hy).
Qed.

(** ** Scheduling: team 1 is the stronger team *)

Lemma matchups_loop_oriented fuel pool recentMatches m :
  StronglySorted (fun a b => strength b <= strength a) pool ->
  In m (matchups_loop fuel pool recentMatches) ->
  strength (team2 m) <= strength (team1 m).
Proof.
  revert pool; induction fuel as [|fuel IH]; intros pool Hs; simpl; [intros []|].
  destruct pool as [|t1 [|t rest]]; [intros []|intros []|].
  destruct (best_opponent_found t1 t rest recentMatches) as [j [c [E [Hj _]]]].
  rewrite E. intros [Hm|H].
  - rewrite <- Hm; simpl. apply StronglySorted_inv in Hs as [_ Hf].
    apply (proj1 (Forall_forall _ _) Hf). exact (nth_In (t :: rest) dummy_pair Hj).
  - apply IH with (pool := remove_nth j (t :: rest)); [|exact H].
    apply StronglySorted_remove_nth. apply StronglySorted_inv in Hs as [Hs _]. exact Hs.
Qed.

(** The Match Scheduler takes the strongest remaining team as team 1, so
    in every proposal team 1 is at least as strong as team 2 and a handicap,
    when there is one, always goes to team 2. *)
Theorem generateMatchups_team1_stronger (teams : list GeneratedPair)
  (recentMatches : list string) (m : GeneratedMatch) :
  In m (generateMatchups teams recentMatches) ->
  strength (team2 m) <= strength (team1 m)
  /\ forall h, handicap m = Some h -> h_team h = 2%nat.
Proof.
  intros Hin.
  assert (Hs : strength (team2 m) <= strength (team1 m)).
  { unfold generateMatchups in Hin. eapply matchups_loop_oriented; [|exact Hin].
    apply sort_by_sorted.
    - intros x y E. unfold strength_desc, Rltb in E.
      destruct (Rlt_dec _ _); [lra | discriminate].
    - intros x y E. unfold strength_desc, Rltb in E.
      destruct (Rlt_dec _ _); [discriminate | lra].
    - intros x y z; lra. }
  split; [exact Hs|].
  apply matchups_loop_handicap in Hin. rewrite Hin.
  unfold pair_handicap. rewrite (Rltb_false _ _ Hs). simpl.
  intros h. destruct (Nat.ltb 0 _); intros E; [|discriminate].
  injection E as <-. reflexivity.
Qed.

(** ** Query: ranking and size of the answer *)

Lemma on_roster_iff (allPlayers : list Player) (id : string) :
  on_roster allPlayers id = true <-> In id (map p_id allPlayers).
Proof.
  unfold on_roster. rewrite existsb_exists. split.
  - intros [x [Hx E]]. apply String.eqb_eq in E. subst x. exact Hx.
  - intros H. exists id. split; [exact H | apply String.eqb_refl].
Qed.

Lemma resolve_ids_length players ms ids :
  List.length (resolve_ids ids (calculatePlayerForms players ms))
  = List.length (filter (on_roster players) ids).
Proof.
  induction ids as [|id t IH]; simpl; [reflexivity|].
  pose proof (forms_get_iff players ms id) as Hi.
  rewrite <- on_roster_iff in Hi.
  destruct (map_get id _) as [f|]; destruct (on_roster players id);
    simpl; try (f_equal; exact IH); try exact IH.
  - exfalso. assert (false = true) by (apply Hi; discriminate). discriminate.
  - exfalso. apply (proj2 Hi); reflexivity.
Qed.

Lemma index_pairs_length {A} (l : list A) :
  List.length (index_pairs l) = Nat.div (List.length l * (List.length l - 1)) 2.
Proof.
  assert (H : (2 * List.length (index_pairs l) = List.length l * (List.length l - 1))%nat).
  { induction l as [|x t IH]; [reflexivity|].
    cbn [index_pairs List.length]. rewrite length_app, length_map.
    replace (S (List.length t) - 1)%nat with (List.length t) by lia.
    destruct (List.length t) as [|n]; [simpl in IH |- *; lia|].
    replace (S n - 1)%nat with n in IH by lia. nia. }
  rewrite <- H, Nat.mul_comm, Nat.div_mul by lia. reflexivity.
Qed.

Lemma ranking_lt_true a b : ranking_lt a b = true -> ranked_before a b.
Proof.
  unfold ranking_lt, ranked_before, Rltb.
  destruct (Nat.eqb_spec (handicap_points a) 0), (Nat.ltb_spec 0 (handicap_points b)),
    (Nat.ltb_spec 0 (handicap_points a)), (Nat.eqb_spec (handicap_points b) 0),
    (Nat.eqb_spec (handicap_points a) (handicap_points b)),
    (Nat.ltb_spec (handicap_points a) (handicap_points b)),
    (Rlt_dec (matchCost a - matchCost b) 0);
    simpl; intros E; try discriminate;
    first [left; lia | right; split; [lia | lra]].
Qed.

Lemma ranking_lt_false a b : ranking_lt a b = false -> ranked_before b a.
Proof.
  unfold ranking_lt, ranked_before, Rltb.
  destruct (Nat.eqb_spec (handicap_points a) 0), (Nat.ltb_spec 0 (handicap_points b)),
    (Nat.ltb_spec 0 (handicap_points a)), (Nat.eqb_spec (handicap_points b) 0),
    (Nat.eqb_spec (handicap_points a) (handicap_points b)),
    (Nat.ltb_spec (handicap_points a) (handicap_points b)),
    (Rlt_dec (matchCost a - matchCost b) 0);
    simpl; intros E; try discriminate;
    first [left; lia | right; split; [lia | lra]].
Qed.

Lemma ranked_before_trans a b c :
  ranked_before a b -> ranked_before b c -> ranked_before a c.
Proof.
  unfold ranked_before. intros [H1|[H1 H1']] [H2|[H2 H2']];
    first [left; lia | right; split; [lia | lra]].
Qed.

Lemma findTop_sorted_length fixedTeamIds poolIds allPlayers allMatches :
  let res := findTopMatchupsForTeam fixedTeamIds poolIds allPlayers allMatches in
  let k := List.length (filter (on_roster allPlayers) poolIds) in
  StronglySorted ranked_before res
  /\ List.length res =
       if on_roster allPlayers (fst fixedTeamIds)
          && on_roster allPlayers (snd fixedTeamIds)
       then Nat.min 10 (Nat.div (k * (k - 1)) 2) else 0%nat.
Proof.
  intros res k. unfold res, findTopMatchupsForTeam; cbv zeta.
  pose proof (forms_get_iff allPlayers allMatches (fst fixedTeamIds)) as H1.
  pose proof (forms_get_iff allPlayers allMatches (snd fixedTeamIds)) as H2.
  rewrite <- on_roster_iff in H1, H2.
  destruct (map_get (fst fixedTeamIds) _) as [p1|].
  2:{ destruct (on_roster allPlayers (fst fixedTeamIds)).
      - exfalso. apply (proj2 H1); reflexivity.
      - split; [constructor | reflexivity]. }
  destruct (map_get (snd fixedTeamIds) _) as [p2|].
  2:{ destruct (on_roster allPlayers (snd fixedTeamIds)).
      - exfalso. apply (proj2 H2); reflexivity.
      - rewrite andb_false_r. split; [constructor | reflexivity]. }
  rewrite (proj1 H1 ltac:(discriminate)), (proj1 H2 ltac:(discriminate)). cbn [andb].
  split.
  - apply StronglySorted_firstn, sort_by_sorted;
      [exact ranking_lt_true | exact ranking_lt_false | exact ranked_before_trans].
  - rewrite length_firstn, (Permutation_length (sort_by_perm ranking_lt _)),
      !length_map, index_pairs_length, resolve_ids_length. reflexivity.
Qed.

(** The fixed-team query answers with at most ten opponents, ranked: no
    handicap before any handicap, fewer handicap points first, then lower
    match cost. It answers nothing when a fixed player is not on the
    roster, and otherwise [min(10, k(k-1)/2)] proposals, where [k] counts
    the pool ids that are on the roster. *)
Theorem findTopMatchupsForTeam_ranked_and_sized (fixedTeamIds : string * string)
  (poolIds : list string) (allPlayers : list Player) (allMatches : list Match) :
  let res := findTopMatchupsForTeam fixedTeamIds poolIds allPlayers allMatches in
  let k := List.length (filter (on_roster allPlayers) poolIds) in
  StronglySorted ranked_before res
  /\ List.length res =
       if on_roster allPlayers (fst fixedTeamIds)
          && on_roster allPlayers (snd fixedTeamIds)
       then Nat.min 10 (Nat.div (k * (k - 1)) 2) else 0%nat.
Proof. apply findTop_sorted_length. Qed.

(** ** Handicaps go to the weaker team *)

Lemma step_points_zero d : step_points d = 0%nat <-> d <= 3 / 10.
Proof.
  unfold step_points, Rltb, Rleb.
  destruct (Rlt_dec (3 / 10) d), (Rle_dec d (6 / 10)), (Rlt_dec (6 / 10) d),
    (Rle_dec d (9 / 10)), (Rlt_dec (9 / 10) d), (Rle_dec d (12 / 10)),
    (Rlt_dec (12 / 10) d); simpl; split; intros;
    try discriminate; try reflexivity; lra.
Qed.

(** The handicap block (shared by the three producers, the bonus test
    apart): no handicap exactly when the gap is at most [0.3], and the
    handicapped team is the strictly weaker one. *)
Ltac handicap_weaker_tac :=
  match goal with
  | |- context [step_points (Rabs (strength ?a - strength ?b))] =>
    pose proof (step_points_zero (Rabs (strength a - strength b))) as Hz;
    destruct (step_points (Rabs (strength a - strength b))) as [|sp];
    [ simpl; split;
      [ split; [intros _; apply Hz; reflexivity | intros _; reflexivity]
      | intros h E; discriminate ]
    | assert (Hd : 3 / 10 < Rabs (strength a - strength b))
        by (destruct (Rle_dec (Rabs (strength a - strength b)) (3 / 10)) as [L|L];
            [apply Hz in L; discriminate | lra]);
      destruct (Rltb (strength a) (strength b)) eqn:Hc;
      [ assert (Hs : strength a < strength b)
          by (unfold Rltb in Hc; destruct (Rlt_dec (strength a) (strength b));
              [assumption | discriminate])
      | assert (Hs : strength b < strength a)
          by (unfold Rltb in Hc; destruct (Rlt_dec (strength a) (strength b));
              [discriminate|];
              destruct (Rle_dec 0 (strength a - strength b));
              [rewrite Rabs_right in Hd by lra; lra | lra]) ];
      simpl;
      match goal with
      | |- context [if ?bb then S (S sp) else S sp] => destruct bb
      end;
      simpl;
      (split;
       [ split; [discriminate | intros; lra]
       | intros h E; injection E as <-; simpl;
         first [left; split; [reflexivity | assumption]
               | right; split; [reflexivity | assumption]] ]) ]
  end.

Lemma pair_handicap_weaker prefix t1 t2 c a :
  weaker_gets_handicap (mkGeneratedMatch t1 t2 c (pair_handicap prefix t1 t2) a).
Proof.
  unfold weaker_gets_handicap, pair_handicap; cbn [handicap team1 team2]; cbv zeta.
  handicap_weaker_tac.
Qed.

Lemma predict_weaker team1Ids team2Ids allPlayers allMatches m :
  predictMatchOutcome team1Ids team2Ids allPlayers allMatches = Some m ->
  weaker_gets_handicap m.
Proof.
  unfold predictMatchOutcome.
  destruct team1Ids as [|id1 r1]; [discriminate|].
  destruct team2Ids as [|id2 r2]; [discriminate|].
  cbv zeta.
  destruct (map_get id1 _) as [t1p1|]; [|discriminate].
  destruct (map_get id2 _) as [t2p1|]; [|discriminate].
  generalize (predict_team t1p1 (second_member (id1 :: r1)
                (calculatePlayerForms allPlayers allMatches))) as T1.
  generalize (predict_team t2p1 (second_member (id2 :: r2)
                (calculatePlayerForms allPlayers allMatches))) as T2.
  intros T2 T1 E. injection E as <-.
  unfold weaker_gets_handicap; cbn [handicap team1 team2].
  handicap_weaker_tac.
Qed.

(** In every proposal of the three producers (the Match Scheduler, the
    fixed-team query and the outcome prediction) there is a handicap
    exactly when the two team strengths differ by more than [0.3], and it
    always goes to the strictly weaker team. *)
Theorem handicap_goes_to_weaker_team (teams : list GeneratedPair)
  (recentMatches : list string) (fixedTeamIds : string * string)
  (poolIds team1Ids team2Ids : list string) (allPlayers : list Player)
  (allMatches : list Match) :
  (forall m, In m (generateMatchups teams recentMatches) -> weaker_gets_handicap m)
  /\ (forall m, In m (findTopMatchupsForTeam fixedTeamIds poolIds allPlayers allMatches) ->
        weaker_gets_handicap m)
  /\ (forall m, predictMatchOutcome team1Ids team2Ids allPlayers allMatches = Some m ->
        weaker_gets_handicap m).
Proof.
  split; [|split].
  - intros m H. apply matchups_loop_handicap in H.
    destruct m as [t1 t2 c h a]; simpl in H; subst h. apply pair_handicap_weaker.
  - intros m H. apply findTop_pairs in H. destruct H as [_ [_ H]].
    destruct m as [t1 t2 c h a]; simpl in H; subst h. apply pair_handicap_weaker.
  - apply predict_weaker.
Qed.

(** ** Quality scores stay in [0..100] *)

Lemma opponent_cost_nonneg t1 t2 recentMatches : 0 <= opponent_cost t1 t2 recentMatches.
Proof.
  unfold opponent_cost; cbv zeta.
  pose proof (pow2_ge_0 (strength t1 - strength t2)).
  pose proof (pow2_ge_0 (structure t1 - structure t2)).
  destruct (set_has _ recentMatches); lra.
Qed.

Lemma getPairingCost_nonneg p1 p2 syn recentPairs :
  0 <= getPairingCost p1 p2 syn recentPairs.
Proof.
  unfold getPairingCost; cbv zeta.
  set (d := Rabs (pf_effectiveRating p1 - pf_effectiveRating p2)).
  set (s := synergy_lookup syn (sorted_key [pf_id p1; pf_id p2])).
  assert (H0 : 0 <= 1 * (d - TARGET_DIFF) ^ 2)
    by (rewrite Rmult_1_l; apply pow2_ge_0).
  assert (Hs : 0 <= Rabs s * 2) by (pose proof (Rabs_pos s); lra).
  destruct (Rltb d (6 / 10)), (Rltb 2 d),
    (Rltb (pf_effectiveRating p1) SUPPORT_CUTOFF && Rltb (pf_effectiveRating p2) SUPPORT_CUTOFF),
    (Rltb (35 / 100) (Rabs s)), (set_has _ recentPairs); lra.
Qed.

Lemma Rmax_quality_range c : 0 <= c -> 0 <= Rmax 0 (100 - c) <= 100.
Proof.
  intros Hc. split; [apply Rmax_l | apply Rmax_lub; lra].
Qed.

Lemma matchups_loop_quality fuel pool recentMatches m :
  In m (matchups_loop fuel pool recentMatches) ->
  0 <= qualityScore (analysis m) <= 100.
Proof.
  revert pool; induction fuel as [|fuel IH]; intros pool; simpl; [intros []|].
  destruct pool as [|t1 [|t rest]]; [intros []|intros []|].
  destruct (best_opponent_found t1 t rest recentMatches) as [j [c [E [_ Hc]]]].
  rewrite E. intros [Hm|H].
  - rewrite <- Hm; simpl. apply Rmax_quality_range. rewrite Hc. apply opponent_cost_nonneg.
  - exact (IH _ H).
Qed.

Lemma findTop_quality fixedTeamIds poolIds allPlayers allMatches m :
  In m (findTopMatchupsForTeam fixedTeamIds poolIds allPlayers allMatches) ->
  0 <= qualityScore (analysis m) <= 100.
Proof.
  unfold findTopMatchupsForTeam; cbv zeta.
  destruct (map_get (fst fixedTeamIds) _) as [p1|]; [|intros []].
  destruct (map_get (snd fixedTeamIds) _) as [p2|]; [|intros []].
  intros H. apply In_firstn, In_sort_by, in_map_iff in H.
  destruct H as [cand [<- Hc]]. cbn [qualityScore analysis].
  apply in_map_iff in Hc. destruct Hc as [[o1 o2] [<- _]].
  apply Rmax_quality_range. unfold make_pair; cbn [strength structure cost].
  pose proof (getPairingCost_nonneg o1 o2 (calculateSynergyMatrix allMatches) []).
  match goal with |- context [1 * ?x ^ 2] => pose proof (pow2_ge_0 x) end.
  match goal with |- context [7 / 10 * ?x ^ 2] => pose proof (pow2_ge_0 x) end.
  destruct (set_has _ _); lra.
Qed.

Lemma predict_quality team1Ids team2Ids allPlayers allMatches m :
  predictMatchOutcome team1Ids team2Ids allPlayers allMatches = Some m ->
  0 <= qualityScore (analysis m) <= 100.
Proof.
  unfold predictMatchOutcome.
  destruct team1Ids as [|id1 r1]; [discriminate|].
  destruct team2Ids as [|id2 r2]; [discriminate|].
  cbv zeta.
  destruct (map_get id1 _) as [t1p1|]; [|discriminate].
  destruct (map_get id2 _) as [t2p1|]; [|discriminate].
  generalize (predict_team t1p1 (second_member (id1 :: r1)
                (calculatePlayerForms allPlayers allMatches))) as T1.
  generalize (predict_team t2p1 (second_member (id2 :: r2)
                (calculatePlayerForms allPlayers allMatches))) as T2.
  intros T2 T1 E. injection E as <-. simpl.
  apply Rmax_quality_range.
  pose proof (Rabs_pos (strength T1 - strength T2)). lra.
Qed.

(** Every proposal of the three producers has a quality score between [0]
    and [100]: the costs it is taken from are never negative. *)
Theorem qualityScore_in_range (teams : list GeneratedPair)
  (recentMatches : list string) (fixedTeamIds : string * string)
  (poolIds team1Ids team2Ids : list string) (allPlayers : list Player)
  (allMatches : list Match) :
  (forall m, In m (generateMatchups teams recentMatches) ->
     0 <= qualityScore (analysis m) <= 100)
  /\ (forall m, In m (findTopMatchupsForTeam fixedTeamIds poolIds allPlayers allMatches) ->
        0 <= qualityScore (analysis m) <= 100)
  /\ (forall m, predictMatchOutcome team1Ids team2Ids allPlayers allMatches = Some m ->
        0 <= qualityScore (analysis m) <= 100).
Proof.
  split; [|split].
  - intros m H. exact (matchups_loop_quality _ _ _ _ H).
  - apply findTop_quality.
  - apply predict_quality.
Qed.

(** ** When the prediction answers nothing *)

Lemma predict_none_iff team1Ids team2Ids allPlayers allMatches :
  predictMatchOutcome team1Ids team2Ids allPlayers allMatches = None
  <-> team1Ids = [] \/ team2Ids = []
      \/ on_roster allPlayers (hd "" team1Ids) = false
      \/ on_roster allPlayers (hd "" team2Ids) = false.
Proof.
  unfold predictMatchOutcome.
  destruct team1Ids as [|id1 r1]; [split; [intros _; left; reflexivity | reflexivity]|].
  destruct team2Ids as [|id2 r2];
    [split; [intros _; right; left; reflexivity | reflexivity]|].
  cbv zeta. simpl hd.
  pose proof (forms_get_iff allPlayers allMatches id1) as H1.
  pose proof (forms_get_iff allPlayers allMatches id2) as H2.
  rewrite <- on_roster_iff in H1, H2.
  destruct (map_get id1 _) as [t1p1|].
  - assert (R1 : on_roster allPlayers id1 = true) by (apply H1; discriminate).
    rewrite R1.
    destruct (map_get id2 _) as [t2p1|].
    + assert (R2 : on_roster allPlayers id2 = true) by (apply H2; discriminate).
      rewrite R2. split; [discriminate|].
      intros [E|[E|[E|E]]]; discriminate.
    + destruct (on_roster allPlayers id2); [exfalso; apply (proj2 H2); reflexivity|].
      split; [intros _; right; right; right; reflexivity | reflexivity].
  - destruct (on_roster allPlayers id1); [exfalso; apply (proj2 H1); reflexivity|].
    split; [intros _; right; right; left; reflexivity | reflexivity].
Qed.

(** The outcome prediction answers nothing exactly when a side lists no
    id or the first id of a side is not on the roster; an unknown second id
    never makes it fail. *)
Theorem predictMatchOutcome_none_iff (team1Ids team2Ids : list string)
  (allPlayers : list Player) (allMatches : list Match) :
  predictMatchOutcome team1Ids team2Ids allPlayers allMatches = None
  <-> team1Ids = [] \/ team2Ids = []
      \/ on_roster allPlayers (hd "" team1Ids) = false
      \/ on_roster allPlayers (hd "" team2Ids) = false.
Proof. apply predict_none_iff. Qed.

(** ** The whole run: players, pairs and matches *)

Lemma NoDup_map_filter {A B} (g : A -> B) (f : A -> bool) (l : list A) :
  NoDup (map g l) -> NoDup (map g (filter f l)).
Proof.
  induction l as [|x t IH]; simpl; intros H; [constructor|].
  inversion H as [|? ? Hn Hd]; subst.
  destruct (f x); simpl; [|apply IH, Hd].
  constructor; [|apply IH, Hd].
  intros Hin. apply Hn. apply in_map_iff in Hin as [y [Ey Hy]].
  apply filter_In in Hy as [Hy _]. rewrite <- Ey. apply in_map, Hy.
Qed.

Lemma run_returned draws selectedPlayerIds allPlayers allMatches r :
  runAutoMatchmaker draws selectedPlayerIds allPlayers allMatches = Return r ->
  map pf_id (res_players r) = map p_id (selectedPlayers selectedPlayerIds allPlayers)
  /\ Nat.modulo (List.length (res_players r)) 2 = 0%nat
  /\ exists recentPairs recentMatches,
       res_pairs r = generateOptimalPairs draws (res_players r)
                       (calculateSynergyMatrix allMatches) recentPairs
       /\ res_matches r = generateMatchups (res_pairs r) recentMatches.
Proof.
  unfold runAutoMatchmaker.
  destruct (Nat.eqb (Nat.modulo (List.length (selectedPlayers selectedPlayerIds allPlayers)) 2) 0)
    eqn:Ev; simpl; [|discriminate].
  destruct (recent_sets allMatches) as [rp rm].
  intros H. injection H as <-. simpl. split; [|split].
  - rewrite map_map. apply map_ext_in. intros p Hp.
    unfold selectedPlayers in Hp. apply filter_In in Hp as [Hp _].
    destruct (calculatePlayerForms_get allPlayers allMatches p Hp) as [f [E Hid]].
    unfold form_of. rewrite E. exact Hid.
  - rewrite length_map. apply Nat.eqb_eq, Ev.
  - exists rp, rm. split; reflexivity.
Qed.

Lemma run_partition draws selectedPlayerIds allPlayers allMatches r :
  NoDup (map p_id allPlayers) ->
  runAutoMatchmaker draws selectedPlayerIds allPlayers allMatches = Return r ->
  Permutation (members (res_pairs r)) (res_players r)
  /\ List.length (res_pairs r) = Nat.div (List.length (res_players r)) 2
  /\ exists left, Permutation (match_teams (res_matches r) ++ left) (res_pairs r)
       /\ List.length left = Nat.modulo (List.length (res_pairs r)) 2
       /\ List.length (res_matches r) = Nat.div (List.length (res_pairs r)) 2.
Proof.
  intros Hnd Hr.
  destruct (run_returned _ _ _ _ _ Hr) as [Hids [Hev [rp [rm [Hp Hm]]]]].
  assert (Hnd' : NoDup (map pf_id (res_players r))).
  { rewrite Hids. unfold selectedPlayers. apply NoDup_map_filter, Hnd. }
  destruct (optimal_pairs_partition draws (res_players r)
              (calculateSynergyMatrix allMatches) rp Hnd') as [left [P [L1 L2]]].
  rewrite <- Hp in P, L2. rewrite Hev in L1.
  destruct left; [|discriminate]. rewrite app_nil_r in P.
  split; [exact P|]. split; [exact L2|].
  rewrite Hm. apply matchups_partition.
Qed.

(** With distinct roster ids, a completed run uses every selected player in
    exactly one pair, there are half as many pairs as players, and every
    pair plays in at most one proposed match: all pairs play when their
    number is even, one sits out when it is odd, and there are half as
    many matches as pairs. *)
Theorem runAutoMatchmaker_partition (draws : nat -> nat * nat)
  (selectedPlayerIds : list string) (allPlayers : list Player)
  (allMatches : list Match) (r : AutoMatchResult) :
  NoDup (map p_id allPlayers) ->
  runAutoMatchmaker draws selectedPlayerIds allPlayers allMatches = Return r ->
  Permutation (members (res_pairs r)) (res_players r)
  /\ List.length (res_pairs r) = Nat.div (List.length (res_players r)) 2
  /\ exists left, Permutation (match_teams (res_matches r) ++ left) (res_pairs r)
       /\ List.length left = Nat.modulo (List.length (res_pairs r)) 2
       /\ List.length (res_matches r) = Nat.div (List.length (res_pairs r)) 2.
Proof. apply run_partition. Qed.

(** ** The properties above at concrete inputs *)

(** Synergy sign and bound on one doubles match [A, B] beat [C, D]: the
    entry of the winning pair is recorded. *)
Lemma synergy_sign_witness :
  let ms := [mkMatch 0 ["A"; "B"] ["C"; "D"] 1] in
  exists v, map_get "A-B" (calculateSynergyMatrix ms) = Some v
    /\ exists s, map_get "A-B" (pair_stats ms) = Some s
    /\ (0 < v <-> (games s < 2 * wins s)%nat)
    /\ (v = 0 <-> games s = (2 * wins s)%nat)
    /\ (v < 0 <-> (2 * wins s < games s)%nat).
Proof.
  intros ms. eexists. split; [reflexivity|].
  apply (synergy_sign ms "A-B"). reflexivity.
Defined.

Lemma synergy_bounded_witness :
  let ms := [mkMatch 0 ["A"; "B"] ["C"; "D"] 1] in
  exists v, map_get "C-D" (calculateSynergyMatrix ms) = Some v /\ Rabs v < ln 99.
Proof.
  intros ms. eexists. split; [reflexivity|].
  apply (synergy_bounded ms "C-D"). reflexivity.
Defined.

Lemma effectiveRating_rounding_witness :
  let roster := [mkPlayer "A" None (Some 4); mkPlayer "B" None (Some 3);
                 mkPlayer "C" None (Some (35 / 10)); mkPlayer "D" None (Some 3)] in
  let ms := [mkMatch 0 ["A"; "B"] ["C"; "D"] 1] in
  exists f, map_get "A" (calculatePlayerForms roster ms) = Some f
    /\ Rabs (pf_effectiveRating f - (pf_baseRating f + pf_form f)) <= 1 / 200.
Proof.
  intros roster ms. eexists. split; [reflexivity|].
  apply (effectiveRating_rounding roster ms "A"). reflexivity.
Defined.

Lemma form_step_winner_gains_witness :
  let fA := mkPlayerForm "A" 4 0 4 in
  let fB := mkPlayerForm "B" 3 0 3 in
  let fC := mkPlayerForm "C" (35 / 10) 0 (35 / 10) in
  let fD := mkPlayerForm "D" 3 0 3 in
  let st := [("A", fA); ("B", fB); ("C", fC); ("D", fD)] in
  let m := mkMatch 0 ["A"; "B"] ["C"; "D"] 1 in
  exists share,
    (m_winner m = 1%nat -> 0 < share < 9 / 100)
    /\ (m_winner m <> 1%nat -> - (9 / 100) < share < 0)
    /\ map_get "A" (form_step st m) = Some (with_form fA (pf_form fA + share))
    /\ map_get "B" (form_step st m) = Some (with_form fB (pf_form fB + share))
    /\ map_get "C" (form_step st m) = Some (with_form fC (pf_form fC - share))
    /\ map_get "D" (form_step st m) = Some (with_form fD (pf_form fD - share)).
Proof.
  intros fA fB fC fD st m.
  apply (form_step_winner_gains st m "A" "B" "C" "D");
    try reflexivity.
  repeat constructor; simpl; intuition discriminate.
Defined.


Lemma unplayed_player_keeps_base_witness :
  let roster := [mkPlayer "A" None (Some 4); mkPlayer "B" None (Some 3);
                 mkPlayer "C" None (Some 3); mkPlayer "D" None (Some 3);
                 mkPlayer "E" None (Some 3)] in
  let ms := [mkMatch 0 ["A"; "B"] ["C"; "D"] 1] in
  exists f, map_get "E" (calculatePlayerForms roster ms) = Some f
    /\ pf_form f = 0 /\ pf_effectiveRating f = round2 (pf_baseRating f).
Proof.
  intros roster ms. eexists. split; [reflexivity|].
  apply (unplayed_player_keeps_base roster ms "E").
  - intros m [<-|[]]. simpl. intuition discriminate.
  - reflexivity.
Defined.

Lemma generateOptimalPairs_partition_witness :
  let pool := [mkPlayerForm "A" 4 0 4; mkPlayerForm "B" 3 0 3;
               mkPlayerForm "C" 3 0 3] in
  let pairs := generateOptimalPairs (fun _ => (0%nat, 1%nat)) pool [] [] in
  exists left, Permutation (members pairs ++ left) pool
    /\ List.length left = 1%nat /\ List.length pairs = 1%nat.
Proof.
  intros pool pairs.
  apply (generateOptimalPairs_partition (fun _ => (0%nat, 1%nat)) pool [] []).
  simpl. repeat constructor; simpl; intuition discriminate.
Defined.

Lemma generateMatchups_team1_stronger_witness :
  let fA := mkPlayerForm "A" 4 0 4 in
  let fB := mkPlayerForm "B" 3 0 3 in
  let fC := mkPlayerForm "C" 3 0 3 in
  let fD := mkPlayerForm "D" 2 0 2 in
  let teams := [make_pair fC fD 0; make_pair fA fB 0] in
  exists m, In m (generateMatchups teams [])
    /\ strength (team2 m) <= strength (team1 m)
    /\ forall h, handicap m = Some h -> h_team h = 2%nat.
Proof.
  intros fA fB fC fD teams.
  assert (Hne : exists m0, In m0 (generateMatchups teams [])).
  { pose proof (matchups_partition teams []) as Hp. cbv zeta in Hp.
    destruct Hp as [left [_ [_ Hl]]].
    destruct (generateMatchups teams []) as [|m0 l].
    - discriminate.
    - exists m0. left. reflexivity. }
  destruct Hne as [m0 Hin]. exists m0. split; [exact Hin|].
  exact (generateMatchups_team1_stronger teams [] m0 Hin).
Defined.

Lemma runAutoMatchmaker_partition_witness :
  let roster := [mkPlayer "A" None (Some 4); mkPlayer "B" None (Some 3);
                 mkPlayer "C" None (Some 3); mkPlayer "D" None (Some 2)] in
  exists r,
    runAutoMatchmaker (fun _ => (0%nat, 1%nat)) ["A"; "B"; "C"; "D"] roster [] = Return r
    /\ Permutation (members (res_pairs r)) (res_players r)
    /\ List.length (res_pairs r) = Nat.div (List.length (res_players r)) 2
    /\ exists left, Permutation (match_teams (res_matches r) ++ left) (res_pairs r)
         /\ List.length left = Nat.modulo (List.length (res_pairs r)) 2
         /\ List.length (res_matches r) = Nat.div (List.length (res_pairs r)) 2.
Proof.
  intros roster. eexists. split; [reflexivity|].
  apply (runAutoMatchmaker_partition (fun _ => (0%nat, 1%nat)) ["A"; "B"; "C"; "D"]
           roster []).
  - simpl. repeat constructor; simpl; intuition discriminate.
  - reflexivity.
Defined.
